(** * api_util/map.go: matching, merging, copying and walking decoded trees

    A shallow embedding of the helpers of [api_util/map.go] that compare a
    criteria tree with an observed tree ([InterfaceEquals], [TimeCompare]),
    merge and copy [map[string]interface{}] trees ([MapCombine], [MapAdd],
    [MapReplace], [MapCopy], [ArrayCopy]) and walk them
    ([IterateMapsInInterface], [IterateFieldsInInterface]).

    Go's [interface{}] holding decoded JSON or YAML is the inductive [value];
    a Go map is a [gmap] wrapped in [option] ([None] is the nil map), a Go
    slice a [list] wrapped in [option] ([None] is the nil slice). *)

From Stdlib Require Import ZArith Floats Ascii String.
From stdpp Require Import base option list strings gmap pretty.

#[local] Set Warnings "-register-all".

(** ** The value model *)

(** The dynamic values of an [interface{}] in a decoded JSON or YAML tree or
    in a tree built for a test: [nil], [bool], [int], [float64], [string],
    [json.Number], [[]interface{}] and [map[string]interface{}].  [Nil] is
    the nil interface.  [JsonNumber] is [json.Number] (declared [type Number
    string]): a number kept as the text it was decoded from. *)
Inductive value : Type :=
  | Nil
  | Bool (b : bool)
  | Int (n : Z)
  | Float64 (f : float)
  | String (s : string)
  | JsonNumber (s : string)
  | Slice (a : option (list value))
  | Map (m : option (gmap string value)).

(** [[]interface{}] and [map[string]interface{}]. *)
Abbreviation goslice := (option (list value)).
Abbreviation gomap := (option (gmap string value)).

(** [len] of a slice and of a map; the nil slice and the nil map have length 0. *)
Definition len_slice (a : goslice) : nat :=
  match a with Some l => length l | None => 0 end.

Definition len_map (m : gomap) : nat :=
  match m with Some g => size g | None => 0 end.

(** [m[k]] read from a map: the zero value, the nil interface, when the key
    is missing or the map is nil. *)
Definition map_index (m : gomap) (k : string) : value :=
  match m with
  | Some g => default Nil (g !! k)
  | None => Nil
  end.

(** [_, ok := m[k]]. *)
Definition map_has (m : gomap) (k : string) : bool :=
  match m with
  | Some g => bool_decide (is_Some (g !! k))
  | None => false
  end.

(** ** The reflect package, as far as the code uses it *)

Inductive rtype := TBool | TInt | TFloat64 | TString | TJsonNumber | TSlice | TMap.

Inductive rkind := KBool | KInt | KFloat32 | KFloat64 | KString | KArray | KSlice | KMap.

#[global] Instance rtype_eq_dec : EqDecision rtype.
Proof. solve_decision. Defined.

#[global] Instance rkind_eq_dec : EqDecision rkind.
Proof. solve_decision. Defined.

(** [reflect.TypeOf]: [None] is the nil [Type] of the nil interface. *)
Definition reflect_TypeOf (v : value) : option rtype :=
  match v with
  | Nil => None
  | Bool _ => Some TBool
  | Int _ => Some TInt
  | Float64 _ => Some TFloat64
  | String _ => Some TString
  | JsonNumber _ => Some TJsonNumber
  | Slice _ => Some TSlice
  | Map _ => Some TMap
  end.

Definition Kind (t : rtype) : rkind :=
  match t with
  | TBool => KBool
  | TInt => KInt
  | TFloat64 => KFloat64
  | TString | TJsonNumber => KString
  | TSlice => KSlice
  | TMap => KMap
  end.

Definition Comparable (t : rtype) : bool :=
  match t with
  | TSlice | TMap => false
  | _ => true
  end.

(** [Type.String()]. *)
Definition rtype_String (t : rtype) : string :=
  match t with
  | TBool => "bool"
  | TInt => "int"
  | TFloat64 => "float64"
  | TString => "string"
  | TJsonNumber => "json.Number"
  | TSlice => "[]interface {}"
  | TMap => "map[string]interface {}"
  end.

(** [a == b] on two interfaces whose dynamic types are the same comparable
    type; floats compare as IEEE 754 values. *)
Definition go_eq (a b : value) : bool :=
  match a, b with
  | Bool x, Bool y => bool_decide (x = y)
  | Int x, Int y => bool_decide (x = y)
  | Float64 x, Float64 y => PrimFloat.eqb x y
  | String x, String y => bool_decide (x = y)
  | JsonNumber x, JsonNumber y => bool_decide (x = y)
  | _, _ => false
  end.

(** ** The time package, as far as the code uses it *)

(** [time.Time] as [time.Parse] builds it (no monotonic clock reading):
    [wall] holds the nanoseconds within the second, [ext] the seconds since
    January 1 of year 1, [loc] the [*Location], [None] for the nil pointer
    that stands for UTC and [Some p] for the location at address [p]. *)
Record Time := mkTime { wall : Z; ext : Z; loc : option positive }.

#[global] Instance Time_eq_dec : EqDecision Time.
Proof. solve_decision. Defined.

(** [t1 == t2] on two [time.Time] structs: field by field, the location by
    pointer. *)
Definition Time_eqb (t1 t2 : Time) : bool := bool_decide (t1 = t2).

(** [t1.Equal(t2)]: the same instant, whatever the locations. *)
Definition Time_Equal (t1 t2 : Time) : bool :=
  bool_decide (ext t1 = ext t2 ∧ wall t1 = wall t2).

Definition RFC3339 : string := "2006-01-02T15:04:05Z07:00".

(** What the code calls of Go's standard library and this repository does not
    define: parsing a timestamp, the offset of a location, and the two leaf
    renderers of [encoding/json]. *)
Class GoRuntime := {
  (** [time.Parse(layout, value)]; [None] when it returns an error.  It is a
      function of the string here: one string parsed twice gives one
      location address, where Go may allocate a location at each call. *)
  time_Parse : string → string → option Time;
  (** The offset, in seconds east of UTC, that the location at an address has
      at the given second. *)
  Location_offset : positive → Z → Z;
  (** The digits [encoding/json] writes for a finite [float64]. *)
  json_float : float → string;
  (** What [encoding/json] writes between the quotes of a string. *)
  json_escape : string → string;
}.

Section Matcher.
Context `{rt : GoRuntime}.

(** [t.abs()]: the seconds since the absolute zero year, in the time's
    location, as a [uint64]. *)
Definition Time_abs (t : Time) : Z :=
  let sec := (ext t + -62135596800)%Z in
  let sec :=
    match loc t with
    | None => sec
    | Some l => (sec + Location_offset l sec)%Z
    end in
  ((sec + (62135596800 + 9223371966579724800)) mod 2 ^ 64)%Z.

(** [t.Second()] and [t.Minute()]. *)
Definition Time_Second (t : Time) : Z := (Time_abs t mod 60)%Z.

Definition Time_Minute (t : Time) : Z := ((Time_abs t mod 3600) / 60)%Z.

(** [fmt.Sprintf("%d", n)]. *)
Definition Sprintf_d (n : Z) : string := pretty n.

(** [strings.Contains(s, substr)]. *)
Fixpoint strings_Contains (s substr : string) : bool :=
  String.prefix substr s ||
  match s with
  | EmptyString => false
  | String.String _ s' => strings_Contains s' substr
  end.

(** [TimeCompare], api_util/map.go lines 83-116. *)
Definition TimeCompare (v1 v2 : value) : bool :=
  match v1 with
  | String s1 =>
    match v2 with
    | String s2 =>
      let r1 := time_Parse RFC3339 s1 in
      let r2 := time_Parse RFC3339 s2 in
      match r1, r2 with
      | Some t1, Some t2 => Time_eqb t1 t2
      | None, None => false
      | Some t1, None =>
        let t := t1 in
        let s := s2 in
        strings_Contains s (Sprintf_d (Time_Second t)) &&
        strings_Contains s (Sprintf_d (Time_Minute t))
      | None, Some t2 =>
        let t := t2 in
        let s := s1 in
        strings_Contains s (Sprintf_d (Time_Second t)) &&
        strings_Contains s (Sprintf_d (Time_Minute t))
      end
    | _ => false
    end
  | _ => false
  end.

(** ** encoding/json, as far as [json.Marshal] reaches it *)

Definition is_digit (c : ascii) : bool :=
  (48 <=? N_of_ascii c)%N && (N_of_ascii c <=? 57)%N.

Definition is_digit_1_9 (c : ascii) : bool :=
  (49 <=? N_of_ascii c)%N && (N_of_ascii c <=? 57)%N.

(** [for len(s) > 0 && '0' <= s[0] && s[0] <= '9' { s = s[1:] }]. *)
Fixpoint skip_digits (s : string) : string :=
  match s with
  | String.String c s' => if is_digit c then skip_digits s' else s
  | EmptyString => s
  end.

(** [isValidNumber] of encoding/json, step by step. *)
Definition isValidNumber (s : string) : bool :=
  match s with
  | EmptyString => false
  | String.String c0 r0 =>
    (* optional minus sign *)
    match (if Ascii.eqb c0 "-" then r0 else s) with
    | EmptyString => false
    | String.String c1 r1 =>
      (* digits *)
      match (if Ascii.eqb c1 "0" then Some r1
             else if is_digit_1_9 c1 then Some (skip_digits r1)
             else None) with
      | None => false
      | Some s =>
        (* a dot followed by one or more digits *)
        let s :=
          match s with
          | String.String "." (String.String d r) =>
            if is_digit d then skip_digits r else s
          | _ => s
          end in
        (* e or E, an optional sign, digits *)
        match s with
        | String.String e (String.String c r) =>
          if Ascii.eqb e "e" || Ascii.eqb e "E" then
            if Ascii.eqb c "+" || Ascii.eqb c "-" then
              match r with
              | EmptyString => false
              | _ => bool_decide (skip_digits r = EmptyString)
              end
            else bool_decide (skip_digits (String.String c r) = EmptyString)
          else false
        | EmptyString => true
        | _ => false
        end
      end
    end
  end.

(** A string between quotes, as the string encoder and the map encoder (for
    keys) write it. *)
Definition json_quote (s : string) : string :=
  String.String "034"%char (json_escape s +:+ String.String "034"%char EmptyString).

(** Insertion of an entry into a list sorted by key: the map encoder writes
    the entries in the order of their keys. *)
Fixpoint insert_by_key {A} (e : string * A) (l : list (string * A)) : list (string * A) :=
  match l with
  | [] => [e]
  | e' :: l' => if String.leb e.1 e'.1 then e :: l else e' :: insert_by_key e l'
  end.

Definition sort_by_key {A} (l : list (string * A)) : list (string * A) :=
  foldr insert_by_key [] l.

(** The encoder behind [json.Marshal]; [None] is an encoding error. *)
Fixpoint json_encode (v : value) : option string :=
  match v with
  | Nil => Some "null"
  | Bool b => Some (if b then "true" else "false")
  | Int n => Some (pretty n)
  | Float64 f =>
    if PrimFloat.is_nan f || PrimFloat.is_infinity f then None
    else Some (json_float f)
  | String s => Some (json_quote s)
  | JsonNumber s =>
    let numStr := if bool_decide (s = "") then "0" else s in
    if isValidNumber numStr then Some numStr else None
  | Slice None => Some "null"
  | Slice (Some l) =>
    parts ← mapM json_encode l;
    Some ("[" +:+ String.concat "," parts +:+ "]")
  | Map None => Some "null"
  | Map (Some m) =>
    let sv := sort_by_key (map_fold (λ k x acc, (k, json_encode x) :: acc) [] m) in
    parts ← mapM (λ kv, x ← kv.2; Some (json_quote kv.1 +:+ ":" +:+ x)) sv;
    Some ("{" +:+ String.concat "," parts +:+ "}")
  end.

(** [b, _ := json.Marshal(v); string(b)]: the empty string on an error. *)
Definition json_Marshal_string (v : value) : string :=
  default "" (json_encode v).

(** ** The matcher *)

(** [InterfaceEquals], api_util/map.go lines 242-304. *)
Fixpoint InterfaceEquals (criteria existing : value) : bool :=
  match criteria with
  | Nil =>
    (* criteria == nil: lines 243-252 *)
    match reflect_TypeOf existing with
    | None => true
    | Some eType =>
      let existingKind := Kind eType in
      bool_decide (existingKind = KMap ∨ existingKind = KArray ∨ existingKind = KSlice)
    end
  | _ =>
    match reflect_TypeOf criteria, reflect_TypeOf existing with
    | _, None => false (* existing == nil: lines 254-256 *)
    | None, _ => false (* not reached: criteria is not nil here *)
    | Some cType, Some eType =>
      if bool_decide (cType = eType) && Comparable cType then
        if go_eq criteria existing then true
        else TimeCompare criteria existing
      else
        let cKind := Kind cType in
        let eKind := Kind eType in
        if bool_decide (cKind = KArray ∨ cKind = KSlice) then
          bool_decide (eKind = KArray ∨ eKind = KSlice)
        else if bool_decide (cKind = KMap) then
          if bool_decide (eKind ≠ KMap) then false
          else
            match criteria, existing with
            | Map (Some cm), Map em =>
              map_fold (λ k v ok, ok && InterfaceEquals v (map_index em k)) true cm
            | Map None, Map em => true
            | _, _ => false
            end
        else if bool_decide (eKind = KString) &&
                bool_decide (cKind = KInt ∨ cKind = KFloat32 ∨ cKind = KFloat64) then
          bool_decide (rtype_String eType = "json.Number")
        else
          bool_decide (json_Marshal_string criteria = json_Marshal_string existing)
    end
  end.

End Matcher.

(** ** Copying and merging *)

(** [append(dst, v)]; appending to the nil slice allocates. *)
Definition go_append (dst : goslice) (v : value) : goslice :=
  Some (default [] dst ++ [v]).

(** [dst[k] = v].  Go panics when [dst] is the nil map; the functions below
    only assign into a map they made or found non-empty. *)
Definition map_assign (dst : gomap) (k : string) (v : value) : gomap :=
  match dst with
  | Some g => Some (<[k := v]> g)
  | None => None
  end.

(** [for k, v := range m { acc = body k v acc }]; no iteration over the nil
    map.  Go leaves the order of the entries open; the model takes them in
    the order [map_fold] does. *)
Definition range_map {B} (m : gomap) (body : string → value → B → B) (acc : B) : B :=
  match m with
  | Some g => map_fold body acc g
  | None => acc
  end.

(** The body of [MapCopy], lines 180-195, over the copy [rec] of an entry. *)
Definition MapCopy_body (rec : value → value) (src : gmap string value) : gomap :=
  if bool_decide (size src = 0) then None
  else
    let dst : gomap := Some ∅ in
    map_fold (λ k v dst, map_assign dst k (rec v)) dst src.

(** The body of [ArrayCopy], lines 202-216, over the copy [rec] of an element. *)
Definition ArrayCopy_body (rec : value → value) (src : list value) : goslice :=
  if bool_decide (length src = 0) then None
  else
    let dst : goslice := None in
    foldl (λ dst v, go_append dst (rec v)) dst src.

(** What both loops do to an entry [v] before storing it: a map is replaced
    by its [MapCopy], a slice by its [ArrayCopy], anything else is kept. *)
Fixpoint copy_value (v : value) : value :=
  match v with
  | Map (Some m) => Map (MapCopy_body copy_value m)
  | Map None => Map None
  | Slice (Some a) => Slice (ArrayCopy_body copy_value a)
  | Slice None => Slice None
  | _ => v
  end.

Definition MapCopy (src : gomap) : gomap :=
  match src with
  | Some g => MapCopy_body copy_value g
  | None => None
  end.

Definition ArrayCopy (src : goslice) : goslice :=
  match src with
  | Some l => ArrayCopy_body copy_value l
  | None => None
  end.

(** [MapCombine], lines 124-135. *)
Definition MapCombine (dst src : gomap) : gomap :=
  if bool_decide (len_map dst = 0) then MapCopy src
  else if bool_decide (len_map src = 0) then dst
  else range_map src (λ k v dst, map_assign dst k v) dst.

(** [MapAdd], lines 143-156. *)
Definition MapAdd (dst src : gomap) : gomap :=
  if bool_decide (len_map dst = 0) then MapCopy src
  else if bool_decide (len_map src = 0) then dst
  else range_map src (λ k v dst, if negb (map_has dst k) then map_assign dst k v else dst) dst.

(** [MapReplace], lines 164-174. *)
Definition MapReplace (dst src : gomap) : gomap :=
  if bool_decide (len_map src = 0) then dst
  else range_map dst (λ k _ dst, if map_has src k then map_assign dst k (map_index src k) else dst) dst.

(** [MapIsCompatible], lines 51-58. *)
Definition MapIsCompatible (big small : gomap) : bool :=
  range_map small (λ k _ ok, ok && map_has big k) true.

(** ** Walking *)

Section Walker.
Context {St Err : Type}.

(** A Go function returning [error], run for its effect on the caller's
    state: the state it leaves and the error, [None] for nil. *)
Definition action : Type := St → St * option Err.

(** [MapIterFunc] and [FieldIterFunc], lines 368 and 373. *)
Definition MapIterFunc : Type := gomap → action.
Definition FieldIterFunc : Type := string → value → action.

(** [return nil]. *)
Definition ret_nil : action := λ s, (s, None).

(** [err := a; if err != nil { return err }; rest]. *)
Definition and_then (a rest : action) : action :=
  λ s, match a s with
       | (s', None) => rest s'
       | (s', Some e) => (s', Some e)
       end.

(** [for k, v := range m { err := body k v; if err != nil { return err } };
    return nil], the entries in the order of [map_to_list]. *)
Definition each_entry (m : gmap string value) (body : string → value → action) : action :=
  map_fold (λ k v rest, and_then (body k v) rest) ret_nil m.

(** The same loop over a slice. *)
Definition each_element (l : list value) (body : value → action) : action :=
  foldr (λ v rest, and_then (body v) rest) ret_nil l.

(** [IterateMapsInInterface], lines 382-406. *)
Fixpoint IterateMapsInInterface (in_ : value) (callback : MapIterFunc) : action :=
  match in_ with
  | Map (Some inMap) =>
    and_then (callback (Some inMap))
      (each_entry inMap (λ _ v, IterateMapsInInterface v callback))
  | Slice (Some inArray) =>
    each_element inArray (λ v, IterateMapsInInterface v callback)
  | _ => ret_nil
  end.

(** [IterateFieldsInInterface], lines 411-423. *)
Definition IterateFieldsInInterface (in_ : value) (callback : FieldIterFunc) : action :=
  let mapCallback : MapIterFunc := λ m,
    match m with
    | Some g => each_entry g callback
    | None => ret_nil
    end in
  IterateMapsInInterface in_ mapCallback.

(** Running the calls [f x] for the [x] of a list in order, up to and
    including the first one that returns an error. *)
Fixpoint until_error {A} (f : A → action) (l : list A) : action :=
  match l with
  | [] => ret_nil
  | x :: l' => and_then (f x) (until_error f l')
  end.

(** All the calls [f x] for the [x] of a list return nil, and leave the
    state [s'] when started in [s]. *)
Fixpoint all_succeed {A} (f : A → action) (l : list A) (s : St) : option St :=
  match l with
  | [] => Some s
  | x :: l' =>
    match f x s with
    | (s', None) => all_succeed f l' s'
    | (_, Some _) => None
    end
  end.

End Walker.

Arguments action : clear implicits.
Arguments MapIterFunc : clear implicits.
Arguments FieldIterFunc : clear implicits.

(** The maps [IterateMapsInInterface] hands to its callback when no call
    fails, in the order of the calls. *)
Fixpoint map_visits (v : value) : list gomap :=
  match v with
  | Map (Some m) => Some m :: map_fold (λ _ x rest, map_visits x ++ rest) [] m
  | Slice (Some l) => foldr (λ x rest, map_visits x ++ rest) [] l
  | _ => []
  end.

(** The fields [IterateFieldsInInterface] hands to its callback when no call
    fails, in the order of the calls. *)
Definition field_visits (v : value) : list (string * value) :=
  concat (map (λ m : gomap, map_to_list (default ∅ m)) (map_visits v)).

(** ** The walk as the specification words it: level by level *)

(** The Object nodes reached from [v] without entering an Object: [v] itself
    when it is one, the ones among the elements of [v] when it is a Sequence
    (a Sequence is looked through, never visited). *)
Fixpoint objects_at (v : value) : list (gmap string value) :=
  match v with
  | Map (Some m) => [m]
  | Slice (Some l) => foldr (λ x rest, objects_at x ++ rest) [] l
  | _ => []
  end.

(** The Object nodes one nesting level below the ones of a level. *)
Definition next_level (lvl : list (gmap string value)) : list (gmap string value) :=
  concat (map (λ m : gmap string value, concat (map (λ kv, objects_at kv.2) (map_to_list m))) lvl).

(** The levels from [lvl] on, one after the other; [n] bounds their number. *)
Fixpoint levels_from (n : nat) (lvl : list (gmap string value)) : list (gmap string value) :=
  match n, lvl with
  | S n', _ :: _ => lvl ++ levels_from n' (next_level lvl)
  | _, _ => []
  end.

(** The number of nodes of a tree; it bounds the number of its levels. *)
Fixpoint vsize (v : value) : nat :=
  match v with
  | Map (Some m) => S (map_fold (λ _ x n, vsize x + n) 0 m)
  | Slice (Some l) => S (foldr (λ x n, vsize x + n) 0 l)
  | _ => 1
  end.

(** Breadth-first order: the root level first, then the next, and so on. *)
Definition WalkObjects_spec (v : value) : list gomap :=
  map Some (levels_from (vsize v) (objects_at v)).

(** ** Copying as the specification words it *)

(** A tree equal to [v] but for its empty containers, each replaced by the
    absent container (Go's nil map, nil slice). *)
Fixpoint strip_empty (v : value) : value :=
  match v with
  | Map (Some m) =>
    if bool_decide (size m = 0) then Map None else Map (Some (strip_empty <$> m))
  | Slice (Some l) =>
    if bool_decide (length l = 0) then Slice None else Slice (Some (strip_empty <$> l))
  | _ => v
  end.

(** No empty container anywhere in the tree (the nil ones are absent, not
    empty). *)
Fixpoint no_empty (v : value) : bool :=
  match v with
  | Map (Some m) =>
    negb (bool_decide (size m = 0)) && map_fold (λ _ x ok, ok && no_empty x) true m
  | Slice (Some l) =>
    negb (bool_decide (length l = 0)) && forallb no_empty l
  | _ => true
  end.

(** Lookup in a Go map, telling a missing key from a stored nil. *)
Definition map_lookup (m : gomap) (k : string) : option value := m ≫= lookup k.

(** The keys of a Go map. *)
Definition map_keys (m : gomap) : gset string := dom (default ∅ m).

(** ** A runtime to run the examples on

    [time.Parse] is given by its results on the two timestamps the examples
    use: noon UTC on January 1, 2022 is second 1641038400 of the Unix era,
    63776635200 seconds after January 1 of year 1; written with [Z] it is in
    UTC (the nil location), written with [+01:00] it is the same instant in a
    location one hour east of UTC.  The leaf renderers cover what the
    examples contain: whole numbers below [10^21], and strings of letters
    and digits, which are written as they are. *)
Definition sample_time_Parse (layout s : string) : option Time :=
  if bool_decide (s = "2022-01-01T12:00:00Z") then
    Some (mkTime 0 63776635200 None)
  else if bool_decide (s = "2022-01-01T13:00:00+01:00") then
    Some (mkTime 0 63776635200 (Some 1%positive))
  else None.

Definition sample_json_float (f : float) : string :=
  match Prim2SF f with
  | S754_finite sg m e => pretty ((if sg then -1 else 1) * Z.shiftl (Z.pos m) e)%Z
  | S754_zero true => "-0"
  | _ => "0"
  end.

Definition sample_runtime : GoRuntime := {|
  time_Parse := sample_time_Parse;
  Location_offset := λ _ _, 3600%Z;
  json_float := sample_json_float;
  json_escape := λ s, s;
|}.

(** ** [MapCombine] as the specification words it *)

(** The result holds [src[k]] at every key of [src] and [dst[k]] at every
    key of [dst] alone; it is the copy of [src] when [dst] is empty, and
    [dst] when [src] is empty. *)
Definition Combine_claim (dst src : gomap) : Prop :=
  let r := MapCombine dst src in
  (∀ k v, map_lookup src k = Some v → map_lookup r k = Some v) ∧
  (∀ k v, map_lookup src k = None → map_lookup dst k = Some v →
          map_lookup r k = Some v) ∧
  (len_map dst = 0 → r = MapCopy src) ∧
  (len_map src = 0 → r = dst).

(** ** A slice of two maps, the first with a map inside

    [[{"a":{"b":1}},{"c":1}]]: the maps [{"a":{"b":1}}] and [{"c":1}] are on
    one level, the map [{"b":1}] is one level below. *)
Definition inner_map : gmap string value := {["b" := Int 1]}.
Definition first_map : gmap string value := {["a" := Map (Some inner_map)]}.
Definition second_map : gmap string value := {["c" := Int 1]}.
Definition two_maps : value := Slice (Some [Map (Some first_map); Map (Some second_map)]).

(** A callback that records the map it is given and returns nil. *)
Definition record_map : MapIterFunc (list gomap) string :=
  λ m visited, (visited ++ [m], None).

(** A callback that records the map it is given, and fails on [inner_map]. *)
Definition record_until_inner : MapIterFunc (list gomap) string :=
  λ m visited,
    (visited ++ [m],
     if bool_decide (map_keys m = {["b"]}) then Some "stop" else None).

(** [{"x":{"y":1},"z":[{"w":2}]}], the tree of the specification's example. *)
Definition walk_example : value :=
  Map (Some (<["x" := Map (Some {["y" := Int 1]})]>
               {["z" := Slice (Some [Map (Some {["w" := Int 2]})])]})).

(** ** Rendering values as request parameters *)

(** [s[:len(s)-1]] on a non-empty string. *)
Fixpoint drop_last (s : string) : string :=
  match s with
  | EmptyString => EmptyString
  | String.String c EmptyString => EmptyString
  | String.String c s' => String.String c (drop_last s')
  end.

(** [strings.TrimRight(s, ",")]: [s] without its trailing commas. *)
Fixpoint TrimRight_comma (s : string) : string :=
  match s with
  | EmptyString => EmptyString
  | String.String c s' =>
    match TrimRight_comma s' with
    | EmptyString => if Ascii.eqb c "," then EmptyString else String.String c EmptyString
    | r => String.String c r
    end
  end.

Section Params.
Context `{rt : GoRuntime}.

(** [InterfaceToJsonString], lines 23-29.  [None] is a run-time panic: the
    error of [json.Marshal] is dropped and [b[0]] indexes the nil slice it
    returned, or [b[1 : len(b)-1]] is cut out of a single byte. *)
Definition InterfaceToJsonString (i : value) : option string :=
  match json_encode i with
  | None => None
  | Some b =>
    match b with
    | EmptyString => None
    | String.String b0 r =>
      if Ascii.eqb b0 "034" then
        match r with
        | EmptyString => None
        | _ => Some (drop_last r)
        end
      else Some b
    end
  end.

(** The string [MapInterfaceToMapString] stores for a value, lines 36-45:
    the elements of a slice each followed by a comma, the trailing commas
    trimmed; anything else as [InterfaceToJsonString] gives it. *)
Definition param_string (v : value) : option string :=
  match v with
  | Slice ar =>
    let str : option string := Some "" in
    let str :=
      foldl (λ str entry,
               str ← str; e ← InterfaceToJsonString entry; Some (str +:+ e +:+ ","))
            str (default [] ar) in
    TrimRight_comma <$> str
  | _ => InterfaceToJsonString v
  end.

(** [MapInterfaceToMapString], lines 33-48; [None] when a value panics. *)
Definition MapInterfaceToMapString (src : gomap) : option (gmap string string) :=
  let dst : option (gmap string string) := Some ∅ in
  range_map src (λ k v dst, dst ← dst; str ← param_string v; Some (<[k := str]> dst)) dst.

End Params.

(** ** Trees without a NaN *)

(** No [float64] NaN anywhere in the tree. *)
Fixpoint no_nan (v : value) : bool :=
  match v with
  | Float64 f => negb (PrimFloat.is_nan f)
  | Map (Some m) => map_fold (λ _ x ok, ok && no_nan x) true m
  | Slice (Some l) => forallb no_nan l
  | _ => true
  end.

(** ** The walk over a forest of maps *)

(** The visits of the walk over the maps of a list, one map after the
    other. *)
Definition forest_visits (lvl : list (gmap string value)) : list gomap :=
  concat (map (λ m : gmap string value, map_visits (Map (Some m))) lvl).

(** The number of nodes of the maps of a list. *)
Definition forest_size (lvl : list (gmap string value)) : nat :=
  foldr (λ m n, vsize (Map (Some m)) + n) 0 lvl.

(** ** [DeepCopy] as the specification words it *)

(** A container of length 0: the empty map, the empty slice (and the nil
    ones, which are copied to themselves). *)
Definition empty_container (v : value) : bool :=
  match v with
  | Map m => bool_decide (len_map m = 0)
  | Slice a => bool_decide (len_slice a = 0)
  | _ => false
  end.

(** The copy is the absent container when the input is an empty container,
    and the input itself in every other case, the one exception being the
    empty input. *)
Definition Copy_claim (v : value) : Prop :=
  match v with
  | Map m => if empty_container v then copy_value v = Map None else copy_value v = v
  | Slice a => if empty_container v then copy_value v = Slice None else copy_value v = v
  | _ => copy_value v = v
  end.

(** * Facts *)

(** ** Induction over trees *)

Lemma vsize_elem (l : list value) (x : value) :
  x ∈ l → vsize x < vsize (Slice (Some l)).
Proof.
  simpl. induction l as [|y l IH]; intros Hx.
  - by apply elem_of_nil in Hx.
  - apply elem_of_cons in Hx as [->|Hx]; simpl; [lia|].
    specialize (IH Hx). lia.
Qed.

Lemma foldr_vsize_elem (l : list (string * value)) k x :
  (k, x) ∈ l → vsize x ≤ foldr (uncurry (λ _ y n, vsize y + n)) 0 l.
Proof.
  induction l as [|[k' y] l IH]; intros Hx.
  - by apply elem_of_nil in Hx.
  - apply elem_of_cons in Hx as [[= <- <-]|Hx]; simpl; [lia|].
    specialize (IH Hx). lia.
Qed.

Lemma vsize_entry (m : gmap string value) k (x : value) :
  m !! k = Some x → vsize x < vsize (Map (Some m)).
Proof.
  intros Hk. simpl. rewrite map_fold_foldr.
  apply elem_of_map_to_list in Hk.
  pose proof (foldr_vsize_elem _ _ _ Hk) as Hle. lia.
Qed.

(** Induction over a tree, with the property in hand for the elements of a
    Sequence and the values of an Object. *)
Lemma value_tree_ind (P : value → Prop) :
  P Nil →
  (∀ b, P (Bool b)) →
  (∀ n, P (Int n)) →
  (∀ f, P (Float64 f)) →
  (∀ s, P (String s)) →
  (∀ s, P (JsonNumber s)) →
  P (Slice None) →
  (∀ l, Forall P l → P (Slice (Some l))) →
  P (Map None) →
  (∀ m, map_Forall (λ _, P) m → P (Map (Some m))) →
  ∀ v, P v.
Proof.
  intros HNil HBool HInt HFloat HString HNum HS0 HS HM0 HM v.
  cut (∀ n v, vsize v < n → P v); [intros Hn; apply (Hn (S (vsize v))); lia|].
  clear v. induction n as [|n IH]; intros v Hv; [lia|].
  destruct v as [| | | | | |[l|]|[m|]]; auto.
  - apply HS, Forall_forall. intros x Hx. apply IH.
    pose proof (vsize_elem _ _ Hx). lia.
  - apply HM. intros k x Hk. apply IH.
    pose proof (vsize_entry _ _ _ Hk). lia.
Qed.

(** ** Loops over the entries of a map *)

Lemma map_fold_andb {A} (f : string → A → bool) (m : gmap string A) :
  map_fold (λ k v ok, ok && f k v) true m = true ↔
  ∀ k v, m !! k = Some v → f k v = true.
Proof.
  rewrite map_fold_foldr.
  setoid_rewrite <- elem_of_map_to_list.
  induction (map_to_list m) as [|[k v] l IH]; simpl.
  - split; [|done]. intros _ k v Hkv. by apply elem_of_nil in Hkv.
  - rewrite andb_true_iff, IH. split.
    + intros [Hl Hkv] k' v' [[= -> ->]|Hin]%elem_of_cons; auto.
    + intros Hall. split; [|apply Hall; left].
      intros k' v' Hin. apply Hall. by right.
Qed.

(** ** The matcher *)

Section MatcherFacts.
Context `{rt : GoRuntime}.

(** [InterfaceEquals] on a map criteria, as one equation. *)
Lemma InterfaceEquals_Map (cm : gomap) (e : value) :
  InterfaceEquals (Map cm) e =
  match e with
  | Map em =>
    match cm with
    | Some g => map_fold (λ k v ok, ok && InterfaceEquals v (map_index em k)) true g
    | None => true
    end
  | _ => false
  end.
Proof. destruct e, cm; reflexivity. Qed.

(** C1: a nil criteria matches nil, any slice and any map, whatever they
    hold, and nothing else: it matches no boolean, number or string. *)
Theorem C1_nil_criteria :
  (∀ e, InterfaceEquals Nil e = true ↔
        e = Nil ∨ (∃ a, e = Slice a) ∨ (∃ m, e = Map m)) ∧
  (∀ b, InterfaceEquals Nil (Bool b) = false) ∧
  (∀ n, InterfaceEquals Nil (Int n) = false) ∧
  (∀ f, InterfaceEquals Nil (Float64 f) = false) ∧
  (∀ s, InterfaceEquals Nil (JsonNumber s) = false) ∧
  (∀ s, InterfaceEquals Nil (String s) = false).
Proof.
  split; [|by repeat split].
  intros e. split.
  - destruct e; simpl; try discriminate; eauto.
  - intros [->|[[a ->]|[m ->]]]; reflexivity.
Qed.

(** C2: a map criteria matches exactly the maps in which every key of the
    criteria holds a value its own value matches, a missing key counting as
    nil; what the existing map holds at other keys changes nothing. *)
Theorem C2_map_criteria :
  (∀ (cm : gomap) (e : value),
     InterfaceEquals (Map cm) e = true ↔
     ∃ em, e = Map em ∧
       ∀ k v, map_lookup cm k = Some v →
              InterfaceEquals v (map_index em k) = true) ∧
  (∀ (cm em em' : gomap),
     (∀ k, k ∈ map_keys cm → map_index em k = map_index em' k) →
     InterfaceEquals (Map cm) (Map em) = InterfaceEquals (Map cm) (Map em')) ∧
  InterfaceEquals (Map (Some {["a" := Int 1]}))
                  (Map (Some (<["a" := Int 1]> {["b" := Int 2]}))) = true ∧
  InterfaceEquals (Map (Some (<["a" := Int 1]> {["c" := Int 3]})))
                  (Map (Some {["a" := Int 1]})) = false.
Proof.
  assert (Hiff : ∀ (cm : gomap) (e : value),
     InterfaceEquals (Map cm) e = true ↔
     ∃ em, e = Map em ∧
       ∀ k v, map_lookup cm k = Some v →
              InterfaceEquals v (map_index em k) = true).
  { intros cm e. rewrite InterfaceEquals_Map. split.
    - destruct e as [| | | | | | |em]; try discriminate.
      intros Hm. exists em. split; [done|].
      destruct cm as [g|]; simpl; [|discriminate].
      by apply map_fold_andb.
    - intros (em & -> & Hall). destruct cm as [g|]; [|done].
      by apply map_fold_andb. }
  split; [exact Hiff|]. split; [|split].
  - intros cm em em' Hagree.
    apply eq_true_iff_eq. rewrite !Hiff. split.
    + intros (? & [= <-] & Hall). eexists; split; [done|].
      intros k v Hk. rewrite <- Hagree; [by apply Hall|].
      destruct cm as [g|]; [|done]. apply elem_of_dom. by exists v.
    + intros (? & [= <-] & Hall). eexists; split; [done|].
      intros k v Hk. rewrite Hagree; [by apply Hall|].
      destruct cm as [g|]; [|done]. apply elem_of_dom. by exists v.
  - vm_compute. reflexivity.
  - vm_compute. reflexivity.
Qed.

(** A valid number never starts with a quote. *)
Lemma isValidNumber_head (t : string) :
  isValidNumber t = true → ∃ c r, t = String.String c r ∧ c ≠ "034"%char.
Proof.
  destruct t as [|c r]; [discriminate|]. intros Hv.
  exists c, r. split; [done|]. intros ->. discriminate Hv.
Qed.

(** A string criteria never matches a [json.Number]: the two are compared
    as JSON texts, and the text of a string starts with a quote. *)
Lemma InterfaceEquals_String_JsonNumber (s n : string) :
  InterfaceEquals (String s) (JsonNumber n) = false.
Proof.
  cbn -[isValidNumber json_escape]. apply bool_decide_eq_false.
  unfold json_Marshal_string. cbn -[isValidNumber json_escape].
  destruct (isValidNumber _) eqn:Hv; simpl; [|discriminate].
  apply isValidNumber_head in Hv as (c & r & -> & Hc).
  intros [= Hq]. by apply Hc.
Qed.

(** C3, amended: an [int] or [float64] criteria matches every
    [json.Number], whatever the two numbers are. *)
Theorem C3_number_criteria_json_number :
  (∀ (n : Z) (s : string), InterfaceEquals (Int n) (JsonNumber s) = true) ∧
  (∀ (f : float) (s : string), InterfaceEquals (Float64 f) (JsonNumber s) = true).
Proof. split; reflexivity. Qed.

(** ** Comparing times *)

(** C5: when both strings parse, [TimeCompare] is [==] on the two
    [time.Time] structs, which tells apart two times at the same instant in
    different locations; it is false when neither string parses. *)
Theorem C5_TimeCompare_parsed (a b : string) :
  (∀ t1 t2,
     time_Parse RFC3339 a = Some t1 → time_Parse RFC3339 b = Some t2 →
     TimeCompare (String a) (String b) = Time_eqb t1 t2 ∧
     (Time_Equal t1 t2 = true → loc t1 ≠ loc t2 →
      TimeCompare (String a) (String b) = false)) ∧
  (time_Parse RFC3339 a = None → time_Parse RFC3339 b = None →
   TimeCompare (String a) (String b) = false).
Proof.
  unfold TimeCompare. split.
  - intros t1 t2 -> ->. split; [done|].
    intros _ Hloc. apply bool_decide_eq_false. by intros ->.
  - by intros -> ->.
Qed.

End MatcherFacts.

(** ** Copying *)

Lemma MapCopy_body_fmap (rec : value → value) (src : gmap string value) :
  MapCopy_body rec src = if bool_decide (size src = 0) then None else Some (rec <$> src).
Proof.
  unfold MapCopy_body. case_bool_decide; [done|].
  apply (map_fold_weak_ind (λ r m, r = Some (rec <$> m))).
  - by rewrite fmap_empty.
  - intros k x m r _ ->. simpl. by rewrite fmap_insert.
Qed.

Lemma foldl_go_append (rec : value → value) (l : list value) (dst : goslice) :
  l ≠ [] →
  foldl (λ dst v, go_append dst (rec v)) dst l = Some (default [] dst ++ (rec <$> l)).
Proof.
  revert dst. induction l as [|x l IH]; intros dst Hl; [done|].
  simpl. destruct l as [|y l].
  - done.
  - rewrite IH by done. simpl. by rewrite <- app_assoc.
Qed.

Lemma ArrayCopy_body_fmap (rec : value → value) (src : list value) :
  ArrayCopy_body rec src = if bool_decide (length src = 0) then None else Some (rec <$> src).
Proof.
  unfold ArrayCopy_body. case_bool_decide as Hlen; [done|].
  rewrite foldl_go_append; [done|]. by intros ->.
Qed.

Lemma copy_value_strip_empty (v : value) : copy_value v = strip_empty v.
Proof.
  induction v as [| | | | | | |l IH| |m IH] using value_tree_ind; try done.
  - simpl. rewrite ArrayCopy_body_fmap. case_bool_decide; [done|].
    do 2 f_equal. apply list_fmap_ext. intros i x Hx.
    by apply (Forall_lookup_1 _ _ _ _ IH Hx).
  - simpl. rewrite MapCopy_body_fmap. case_bool_decide; [done|].
    do 2 f_equal. apply map_fmap_ext. intros k x Hk. by apply (IH k x).
Qed.

Lemma strip_empty_no_empty (v : value) : no_empty v = true → strip_empty v = v.
Proof.
  induction v as [| | | | | | |l IH| |m IH] using value_tree_ind; try done.
  - simpl. case_bool_decide; [done|]. simpl. intros Hall.
    do 2 f_equal. rewrite <- (list_fmap_id l) at 2.
    apply list_fmap_ext. intros i x Hx. simpl.
    apply (Forall_lookup_1 _ _ _ _ IH Hx).
    rewrite forallb_forall in Hall. apply Hall.
    apply list_elem_of_In, list_elem_of_lookup. eauto.
  - simpl. case_bool_decide; [done|]. simpl. intros Hall.
    do 2 f_equal. rewrite <- (map_fmap_id m) at 2.
    apply map_fmap_ext. intros k x Hk. simpl.
    apply (IH k x Hk).
    by apply (proj1 (map_fold_andb (λ _ y, no_empty y) m) Hall k x).
Qed.

(** C6, amended: the copy of a tree is the tree with every empty container,
    the input itself or one nested at any depth, replaced by the absent one,
    nil; a tree without an empty container is copied as it is, and so is
    every scalar. *)
Theorem C6_copy_structure :
  (∀ v, copy_value v = strip_empty v) ∧
  (∀ m, Map (MapCopy m) = strip_empty (Map m)) ∧
  (∀ a, Slice (ArrayCopy a) = strip_empty (Slice a)) ∧
  (∀ m, len_map m = 0 → MapCopy m = None) ∧
  (∀ a, len_slice a = 0 → ArrayCopy a = None) ∧
  (∀ v, no_empty v = true → copy_value v = v).
Proof.
  split; [exact copy_value_strip_empty|].
  split; [intros [g|]; [exact (copy_value_strip_empty (Map (Some g)))|done]|].
  split; [intros [l|]; [exact (copy_value_strip_empty (Slice (Some l)))|done]|].
  split; [|split].
  - intros [g|] Hlen; [|done]. simpl in *. rewrite MapCopy_body_fmap.
    by case_bool_decide.
  - intros [l|] Hlen; [|done]. simpl in *. rewrite ArrayCopy_body_fmap.
    by case_bool_decide.
  - intros v Hv. rewrite copy_value_strip_empty. by apply strip_empty_no_empty.
Qed.

(** ** Merging *)

Lemma len_map_0 (m : gomap) : len_map m = 0 → ∀ k, map_lookup m k = None.
Proof.
  destruct m as [g|]; [|done]. simpl. intros ->%map_size_empty_iff k.
  apply lookup_empty.
Qed.

Lemma map_has_lookup (m : gomap) (k : string) :
  map_has m k = bool_decide (is_Some (map_lookup m k)).
Proof. by destruct m. Qed.

Lemma map_index_lookup (m : gomap) (k : string) :
  map_index m k = default Nil (map_lookup m k).
Proof. by destruct m. Qed.

(** The loop of [MapCombine] leaves the union of the two maps, [src] first. *)
Lemma MapCombine_loop (d : gmap string value) (src : gomap) :
  range_map src (λ k v dst, map_assign dst k v) (Some d) = Some (default ∅ src ∪ d).
Proof.
  destruct src as [g|]; simpl; [|by rewrite (left_id_L ∅ (∪))].
  apply (map_fold_weak_ind (λ r m, r = Some (m ∪ d))).
  - by rewrite (left_id_L ∅ (∪)).
  - intros k x m r _ ->. simpl. by rewrite insert_union_l.
Qed.

(** The loop of [MapReplace] never meets the nil map once it starts from a
    map. *)
Lemma MapReplace_loop_Some (src : gomap) (d0 : gmap string value) (l : list (string * value)) :
  foldr (uncurry (λ k (_ : value) dst,
           if map_has src k then map_assign dst k (map_index src k) else dst))
        (Some d0) l =
  Some (foldr (uncurry (λ k (_ : value) d,
                 if map_has src k then <[k := map_index src k]> d else d)) d0 l).
Proof.
  induction l as [|[i x] l IH]; simpl; [done|].
  rewrite IH. by destruct (map_has src i).
Qed.

(** The loop of [MapReplace] over a list of entries, by lookup. *)
Lemma MapReplace_loop_lookup (src : gomap) (d0 : gmap string value) (l : list (string * value)) (k : string) :
  foldr (uncurry (λ k (_ : value) d,
           if map_has src k then <[k := map_index src k]> d else d)) d0 l !! k =
  if bool_decide (k ∈ l.*1 ∧ is_Some (map_lookup src k))
  then Some (map_index src k) else d0 !! k.
Proof.
  induction l as [|[i x] l IH]; simpl.
  - reflexivity.
  - rewrite map_has_lookup.
    destruct (decide (is_Some (map_lookup src i))) as [Hi|Hi];
      [rewrite (bool_decide_eq_true_2 _ Hi)|rewrite (bool_decide_eq_false_2 _ Hi)].
    + destruct (decide (k = i)) as [->|Hne].
      * rewrite lookup_insert_eq. rewrite bool_decide_eq_true_2; [done|].
        split; [left|done].
      * rewrite lookup_insert_ne by done. rewrite IH.
        apply (f_equal (λ b : bool, if b then _ else _)).
        apply bool_decide_ext. rewrite elem_of_cons. intuition congruence.
    + rewrite IH. apply (f_equal (λ b : bool, if b then _ else _)).
      apply bool_decide_ext. rewrite elem_of_cons. intuition (subst; tauto).
Qed.

Lemma MapReplace_lookup (dst src : gomap) (k : string) :
  map_lookup (MapReplace dst src) k =
  match map_lookup dst k, map_lookup src k with
  | Some _, Some v => Some v
  | d, _ => d
  end.
Proof.
  unfold MapReplace. case_bool_decide as Hlen.
  - rewrite (len_map_0 src Hlen). by destruct (map_lookup dst k).
  - destruct dst as [d|]; [|done]. simpl.
    rewrite map_fold_foldr, MapReplace_loop_Some. simpl.
    rewrite MapReplace_loop_lookup, map_index_lookup.
    case_bool_decide as Hk.
    + destruct Hk as [Hin [v Hv]]. rewrite Hv. simpl.
      apply list_elem_of_fmap in Hin as ([k' x] & -> & Hin).
      apply elem_of_map_to_list in Hin. simpl. by rewrite Hin.
    + destruct (d !! k) as [x|] eqn:Hd; [|done].
      destruct (map_lookup src k) as [v|] eqn:Hs; [|done].
      exfalso. apply Hk. split; [|by eexists].
      apply list_elem_of_fmap. exists (k, x). split; [done|].
      by apply elem_of_map_to_list.
Qed.

(** C8: [MapReplace] stores [src[k]] at the keys that both maps have, keeps
    every other entry of [dst], and leaves the keys of [dst] as they were. *)
Theorem C8_MapReplace_common_keys :
  (∀ (dst src : gomap) (k : string),
     map_lookup (MapReplace dst src) k =
     match map_lookup dst k, map_lookup src k with
     | Some _, Some v => Some v
     | d, _ => d
     end) ∧
  (∀ dst src : gomap, map_keys (MapReplace dst src) = map_keys dst) ∧
  MapReplace (Some (<["a" := Int 1]> {["b" := Int 2]}))
             (Some (<["b" := Int 9]> {["c" := Int 9]})) =
  Some (<["a" := Int 1]> {["b" := Int 9]}).
Proof.
  split; [exact MapReplace_lookup|]. split.
  - intros dst src. apply set_eq. intros k.
    pose proof (MapReplace_lookup dst src k) as Hk.
    unfold map_keys. rewrite !elem_of_dom.
    assert (Hl : ∀ m : gomap, default ∅ m !! k = map_lookup m k).
    { by intros [g|]. }
    rewrite !Hl, Hk.
    destruct (map_lookup dst k), (map_lookup src k); split; intros [? ?]; eauto; done.
  - vm_compute. reflexivity.
Qed.

(** C7, amended: on a non-empty [dst], [MapCombine] holds [src[k]] at every
    key of [src] and [dst[k]] at every key of [dst] alone, and nothing else,
    so that an empty [src] leaves [dst] as it is; on an empty [dst] the
    result is [MapCopy src]. *)
Theorem C7_MapCombine_src_wins (dst src : gomap) :
  (len_map dst ≠ 0 →
   (∀ k, map_lookup (MapCombine dst src) k =
         match map_lookup src k with
         | Some v => Some v
         | None => map_lookup dst k
         end) ∧
   (len_map src = 0 → MapCombine dst src = dst)) ∧
  (len_map dst = 0 → MapCombine dst src = MapCopy src).
Proof.
  unfold MapCombine. split.
  - intros Hdst. rewrite bool_decide_eq_false_2 by done. split.
    + intros k. case_bool_decide as Hsrc.
      * by rewrite (len_map_0 src Hsrc).
      * destruct dst as [d|]; [|done]. rewrite MapCombine_loop. simpl.
        rewrite lookup_union. destruct src as [g|]; simpl.
        -- destruct (g !! k), (d !! k); done.
        -- rewrite lookup_empty. by destruct (d !! k).
    + intros Hsrc. by rewrite bool_decide_eq_true_2.
  - intros Hdst. by rewrite bool_decide_eq_true_2.
Qed.

(** C10: with both maps empty, [MapCombine] and [MapAdd] return the nil map:
    the test on [dst] comes first and hands back [MapCopy src], nil for an
    empty [src]. *)
Theorem C10_both_empty_nil (dst src : gomap) :
  len_map dst = 0 → len_map src = 0 →
  MapCombine dst src = None ∧ MapAdd dst src = None.
Proof.
  intros Hdst Hsrc. unfold MapCombine, MapAdd.
  rewrite !bool_decide_eq_true_2 by done.
  destruct src as [g|]; [|done]. simpl in *.
  rewrite MapCopy_body_fmap. by rewrite bool_decide_eq_true_2.
Qed.

(** ** Walking *)

Section WalkerFacts.
Context {St Err : Type}.
Implicit Types (s : St) (e : Err).

Lemma until_error_app {A} (f : A → action St Err) (l1 l2 : list A) s :
  until_error f (l1 ++ l2) s = and_then (until_error f l1) (until_error f l2) s.
Proof.
  revert s. induction l1 as [|x l1 IH]; intros s; simpl; [done|].
  unfold and_then. destruct (f x s) as [s' [e|]]; [done|].
  apply IH.
Qed.

Lemma until_error_ext {A} (f g : A → action St Err) (l : list A) s :
  (∀ x s, f x s = g x s) → until_error f l s = until_error g l s.
Proof.
  intros Hfg. revert s. induction l as [|x l IH]; intros s; simpl; [done|].
  unfold and_then. rewrite Hfg. destruct (g x s) as [s' [e|]]; [done|]. apply IH.
Qed.

Lemma until_error_concat {A B} (f : B → action St Err) (g : A → list B) (l : list A) s :
  until_error (λ x, until_error f (g x)) l s = until_error f (concat (map g l)) s.
Proof.
  revert s. induction l as [|x l IH]; intros s; simpl; [done|].
  rewrite until_error_app. unfold and_then.
  destruct (until_error f (g x) s) as [s' [e|]]; [done|]. apply IH.
Qed.

(** The loop over the entries of a map runs its body on them in order, up to
    the first error. *)
Lemma each_entry_until_error (m : gmap string value) (body : string → value → action St Err) :
  each_entry m body = until_error (uncurry body) (map_to_list m).
Proof.
  unfold each_entry. rewrite map_fold_foldr.
  induction (map_to_list m) as [|[k v] l IH]; simpl; [done|]. by rewrite IH.
Qed.

(** A failing call ends the run: the calls before it have been made, none
    after it, and its error is the result. *)
Lemma until_error_fails {A} (f : A → action St Err) (pre post : list A) (x : A) s s1 s2 e :
  all_succeed f pre s = Some s1 → f x s1 = (s2, Some e) →
  until_error f (pre ++ x :: post) s = (s2, Some e).
Proof.
  revert s. induction pre as [|y pre IH]; intros s; simpl.
  - intros [= ->] Hx. unfold and_then. by rewrite Hx.
  - unfold and_then. destruct (f y s) as [s' [e'|]]; [done|]. apply IH.
Qed.

(** Without a failing call the run makes all the calls and returns nil. *)
Lemma until_error_succeeds {A} (f : A → action St Err) (l : list A) s s' :
  all_succeed f l s = Some s' → until_error f l s = (s', None).
Proof.
  revert s. induction l as [|y l IH]; intros s; simpl.
  - by intros [= ->].
  - unfold and_then. destruct (f y s) as [s1 [e'|]]; [done|]. apply IH.
Qed.

(** [IterateMapsInInterface] runs the callback on the maps of [map_visits],
    in order, up to the first error. *)
Lemma IterateMapsInInterface_until_error (v : value) (callback : MapIterFunc St Err) s :
  IterateMapsInInterface v callback s = until_error callback (map_visits v) s.
Proof.
  revert s.
  induction v as [| | | | | | |l IH| |m IH] using value_tree_ind; intros st; try done.
  - simpl. revert st. induction IH as [|x l Hx _ IHl]; intros st; simpl; [done|].
    rewrite until_error_app. unfold and_then. rewrite Hx.
    destruct (until_error callback (map_visits x) st) as [s' [e|]]; [done|].
    apply IHl.
  - simpl. unfold and_then at 1 2.
    destruct (callback (Some m) st) as [s0 [e|]]; [done|].
    rewrite each_entry_until_error, map_fold_foldr.
    apply map_Forall_to_list in IH. revert s0.
    induction IH as [|[k x] l Hx _ IHl]; intros s0; simpl; [done|].
    rewrite until_error_app. unfold and_then. simpl in Hx. rewrite Hx.
    destruct (until_error callback (map_visits x) s0) as [s' [e|]]; [done|].
    apply IHl.
Qed.

(** [IterateFieldsInInterface] runs the callback on the fields of
    [field_visits], in order, up to the first error. *)
Lemma IterateFieldsInInterface_until_error (v : value) (callback : FieldIterFunc St Err) s :
  IterateFieldsInInterface v callback s =
  until_error (uncurry callback) (field_visits v) s.
Proof.
  unfold IterateFieldsInInterface, field_visits.
  rewrite IterateMapsInInterface_until_error.
  rewrite <- until_error_concat. apply until_error_ext.
  intros [g|] s'; simpl; [|done]. by rewrite each_entry_until_error.
Qed.

(** C9: both walks make the calls of their visit list in order; at the first
    call that returns an error they stop, in the state that call left, and
    return that error; when no call fails they make all the calls and return
    nil. *)
Theorem C9_walk_stops_at_first_error (v : value) :
  (∀ (callback : MapIterFunc St Err) s,
     IterateMapsInInterface v callback s = until_error callback (map_visits v) s) ∧
  (∀ (callback : MapIterFunc St Err) pre m post s s1 s2 e,
     map_visits v = pre ++ m :: post →
     all_succeed callback pre s = Some s1 →
     callback m s1 = (s2, Some e) →
     IterateMapsInInterface v callback s = (s2, Some e)) ∧
  (∀ (callback : MapIterFunc St Err) s s',
     all_succeed callback (map_visits v) s = Some s' →
     IterateMapsInInterface v callback s = (s', None)) ∧
  (∀ (callback : FieldIterFunc St Err) s,
     IterateFieldsInInterface v callback s =
     until_error (uncurry callback) (field_visits v) s) ∧
  (∀ (callback : FieldIterFunc St Err) pre kv post s s1 s2 e,
     field_visits v = pre ++ kv :: post →
     all_succeed (uncurry callback) pre s = Some s1 →
     callback kv.1 kv.2 s1 = (s2, Some e) →
     IterateFieldsInInterface v callback s = (s2, Some e)) ∧
  (∀ (callback : FieldIterFunc St Err) s s',
     all_succeed (uncurry callback) (field_visits v) s = Some s' →
     IterateFieldsInInterface v callback s = (s', None)).
Proof.
  repeat split.
  - apply IterateMapsInInterface_until_error.
  - intros callback pre m post s s1 s2 e Hv Hpre Hm.
    rewrite IterateMapsInInterface_until_error, Hv.
    by apply until_error_fails with s1.
  - intros callback s s' Hall.
    rewrite IterateMapsInInterface_until_error.
    by apply until_error_succeeds.
  - apply IterateFieldsInInterface_until_error.
  - intros callback pre [k x] post s s1 s2 e Hv Hpre Hm.
    rewrite IterateFieldsInInterface_until_error, Hv.
    by apply until_error_fails with s1.
  - intros callback s s' Hall.
    rewrite IterateFieldsInInterface_until_error.
    by apply until_error_succeeds.
Qed.

End WalkerFacts.

(** C4: on [[{"a":{"b":1}},{"c":1}]] the walk goes depth first: it hands
    [{"b":1}], one level down, to the callback before [{"c":1}], where the
    level order is [{"a":{"b":1}}], [{"c":1}], [{"b":1}]. *)
Theorem C4_walk_is_depth_first :
  IterateMapsInInterface two_maps record_map [] =
    ([Some first_map; Some inner_map; Some second_map], None) ∧
  WalkObjects_spec two_maps = [Some first_map; Some second_map; Some inner_map].
Proof. split; vm_compute; reflexivity. Qed.

(** ** Counterexamples and instances *)

(** C3 as stated fails: the string ["7"] does not match the [json.Number]
    [7]. *)
Lemma C3_string_criteria_counterexample :
  @InterfaceEquals sample_runtime (String "7") (JsonNumber "7") = false.
Proof. vm_compute. reflexivity. Qed.

(** C6 as stated fails on a tree that is not an empty container but holds
    one: the copy of [{"a":{}}] is [{"a":nil}], not [{"a":{}}]. *)
Lemma C6_nested_empty_counterexample :
  ¬ Copy_claim (Map (Some {["a" := Map (Some ∅)]})).
Proof. intros Hc. vm_compute in Hc. discriminate Hc. Qed.

(** C7 as stated fails on an empty [dst]: with [src] empty too the result is
    the nil map, not [dst]; with [src = {"a":{}}] the result holds the nil
    map at ["a"], not [src["a"]]. *)
Lemma C7_empty_dst_counterexample :
  ¬ Combine_claim (Some ∅) (Some ∅) ∧
  ¬ Combine_claim (Some ∅) (Some {["a" := Map (Some ∅)]}).
Proof.
  split.
  - intros (_ & _ & _ & Hsrc). specialize (Hsrc eq_refl).
    vm_compute in Hsrc. discriminate Hsrc.
  - intros (Hk & _). specialize (Hk "a" (Map (Some ∅)) eq_refl).
    vm_compute in Hk. discriminate Hk.
Qed.

(** A key of the existing map that the criteria lacks changes nothing: the
    verdict on [{"a":1}] against [{"a":1}] and against [{"a":1,"b":2}] is
    the same. *)
Lemma C2_map_criteria_witness :
  @InterfaceEquals sample_runtime
    (Map (Some {["a" := Int 1]})) (Map (Some {["a" := Int 1]})) =
  @InterfaceEquals sample_runtime
    (Map (Some {["a" := Int 1]})) (Map (Some (<["a" := Int 1]> {["b" := Int 2]}))).
Proof.
  apply (proj1 (proj2 (@C2_map_criteria sample_runtime))).
  intros k Hk. unfold map_keys in Hk. simpl in Hk.
  apply elem_of_dom in Hk as [v Hv].
  apply lookup_singleton_Some in Hv as [<- _]. vm_compute. reflexivity.
Defined.

(** Noon UTC written with [Z] and with [+01:00]: one instant, two
    locations, and [TimeCompare] returns false. *)
Lemma C5_TimeCompare_parsed_witness :
  Time_Equal (mkTime 0 63776635200 None) (mkTime 0 63776635200 (Some 1%positive)) = true ∧
  @TimeCompare sample_runtime
    (String "2022-01-01T12:00:00Z") (String "2022-01-01T13:00:00+01:00") = false.
Proof.
  split; [reflexivity|].
  refine (proj2 (proj1 (@C5_TimeCompare_parsed sample_runtime
                          "2022-01-01T12:00:00Z" "2022-01-01T13:00:00+01:00")
                   (mkTime 0 63776635200 None)
                   (mkTime 0 63776635200 (Some 1%positive)) eq_refl eq_refl) eq_refl _).
  simpl. discriminate.
Defined.

(** The empty map and the empty slice are copied to nil; [{"a":[1]}] is
    copied as it is. *)
Lemma C6_copy_structure_witness :
  MapCopy (Some ∅) = None ∧ ArrayCopy (Some []) = None ∧
  copy_value (Map (Some {["a" := Slice (Some [Int 1])]})) =
  Map (Some {["a" := Slice (Some [Int 1])]}).
Proof.
  destruct C6_copy_structure as (_ & _ & _ & Hm & Ha & Hv).
  split; [apply Hm; reflexivity|].
  split; [apply Ha; reflexivity|].
  apply Hv. vm_compute. reflexivity.
Defined.

(** [MapCombine] on [{"a":1}] and [{"a":2,"b":3}] holds 2 at ["a"]; on
    [{"a":1}] and [{}] it is [{"a":1}]; on [{}] and [{"a":1}] it is the copy
    of [{"a":1}]. *)
Lemma C7_MapCombine_src_wins_witness :
  map_lookup (MapCombine (Some {["a" := Int 1]}) (Some (<["a" := Int 2]> {["b" := Int 3]}))) "a"
  = Some (Int 2) ∧
  MapCombine (Some {["a" := Int 1]}) (Some ∅) = Some {["a" := Int 1]} ∧
  MapCombine (Some ∅) (Some {["a" := Int 1]}) = MapCopy (Some {["a" := Int 1]}).
Proof.
  split; [|split].
  - refine (proj1 (proj1 (C7_MapCombine_src_wins _ _) _) "a"). vm_compute. discriminate.
  - refine (proj2 (proj1 (C7_MapCombine_src_wins _ _) _) _).
    + vm_compute. discriminate.
    + reflexivity.
  - refine (proj2 (C7_MapCombine_src_wins _ _) _). reflexivity.
Defined.

(** The walk over [[{"a":{"b":1}},{"c":1}]] with a callback failing on
    [{"b":1}] stops there, [{"c":1}] unvisited; with a callback that never
    fails it visits the three maps. *)
Lemma C9_walk_stops_at_first_error_witness :
  IterateMapsInInterface two_maps record_until_inner [] =
    ([Some first_map; Some inner_map], Some "stop") ∧
  IterateMapsInInterface two_maps record_map [] =
    ([Some first_map; Some inner_map; Some second_map], None).
Proof.
  destruct (@C9_walk_stops_at_first_error (list gomap) string two_maps)
    as (_ & Hfail & Hok & _).
  split.
  - apply (Hfail record_until_inner [Some first_map]
             (Some inner_map) [Some second_map] [] [Some first_map]).
    + vm_compute. reflexivity.
    + vm_compute. reflexivity.
    + vm_compute. reflexivity.
  - apply Hok. vm_compute. reflexivity.
Defined.

(** [MapCombine] and [MapAdd] on [{}] and [{}] return nil. *)
Lemma C10_both_empty_nil_witness :
  MapCombine (Some ∅) (Some ∅) = None ∧ MapAdd (Some ∅) (Some ∅) = None.
Proof. apply C10_both_empty_nil; reflexivity. Defined.

(** ** The examples of the specification, run *)

Example Add_example :
  MapAdd (Some {["a" := Int 1]}) (Some (<["a" := Int 2]> {["b" := Int 3]})) =
  Some (<["a" := Int 1]> {["b" := Int 3]}).
Proof. vm_compute. reflexivity. Qed.

Example IsCompatible_example :
  MapIsCompatible (Some (<["a" := Int 1]> {["b" := Int 2]})) (Some {["a" := Int 99]}) = true ∧
  MapIsCompatible (Some {["a" := Int 1]}) (Some {["b" := Int 1]}) = false.
Proof. split; vm_compute; reflexivity. Qed.

Example walk_example_visits :
  map_visits walk_example =
  [Some (<["x" := Map (Some {["y" := Int 1]})]>
           {["z" := Slice (Some [Map (Some {["w" := Int 2]})])]});
   Some {["w" := Int 2]};
   Some {["y" := Int 1]}].
Proof. vm_compute. reflexivity. Qed.

Example same_scalars_match :
  @InterfaceEquals sample_runtime (Int 5) (Int 5) = true ∧
  @InterfaceEquals sample_runtime (String "x") (String "x") = true ∧
  @InterfaceEquals sample_runtime (Slice (Some [Int 1])) (Slice (Some [])) = true ∧
  @InterfaceEquals sample_runtime (Slice (Some [])) (Int 1) = false ∧
  @InterfaceEquals sample_runtime (Float64 1) (Int 1) = true.
Proof. repeat split; vm_compute; reflexivity. Qed.

(** * More facts *)

#[local] Set Warnings "-clear-no-such-hyp".

(** ** More about the matcher *)

Section MoreMatcherFacts.
Context `{rt : GoRuntime}.

(** X1: a slice criteria matches exactly the slices, whatever the two
    slices hold. *)
Theorem X1_slice_criteria (a : goslice) (e : value) :
  InterfaceEquals (Slice a) e = true ↔ ∃ b, e = Slice b.
Proof.
  split.
  - destruct e; try discriminate; eauto.
  - by intros [b ->].
Qed.

(** X2: only the nil criteria matches nil, so a key missing from the
    existing map is matched by a nil criteria value alone. *)
Theorem X2_only_nil_matches_nil :
  (∀ criteria, InterfaceEquals criteria Nil = true ↔ criteria = Nil) ∧
  (∀ (cm em : gmap string value) k v,
     InterfaceEquals (Map (Some cm)) (Map (Some em)) = true →
     cm !! k = Some v → em !! k = None → v = Nil).
Proof.
  assert (Hnil : ∀ criteria, InterfaceEquals criteria Nil = true ↔ criteria = Nil).
  { intros criteria. split; [|by intros ->].
    destruct criteria as [| | | | | |[?|]|[?|]]; done. }
  split; [exact Hnil|].
  intros cm em k v Hm Hk Hek. apply Hnil.
  rewrite InterfaceEquals_Map in Hm.
  pose proof (proj1 (map_fold_andb _ _) Hm k v Hk) as Hv.
  simpl in Hv. by rewrite Hek in Hv.
Qed.

(** X3: two booleans, two ints or two [json.Number]s match exactly when
    they are equal ([json.Number]s as texts), two floats when they are equal
    as IEEE values; two strings also match when [TimeCompare] accepts them,
    and that is the only case where the time comparison decides. *)
Theorem X3_same_kind_scalars :
  (∀ a b, InterfaceEquals (Bool a) (Bool b) = true ↔ a = b) ∧
  (∀ a b, InterfaceEquals (Int a) (Int b) = true ↔ a = b) ∧
  (∀ a b, InterfaceEquals (JsonNumber a) (JsonNumber b) = true ↔ a = b) ∧
  (∀ a b, InterfaceEquals (Float64 a) (Float64 b) = PrimFloat.eqb a b) ∧
  (∀ a b, InterfaceEquals (String a) (String b) = true ↔
          a = b ∨ TimeCompare (String a) (String b) = true).
Proof.
  split; [|split; [|split; [|split]]].
  - intros a b. simpl. split; [by case_bool_decide|by intros ->; case_bool_decide].
  - intros a b. simpl. split; [by case_bool_decide|by intros ->; case_bool_decide].
  - intros a b. simpl. split; [by case_bool_decide|by intros ->; case_bool_decide].
  - intros a b. simpl. by destruct (PrimFloat.eqb a b).
  - intros a b.
    change (InterfaceEquals (String a) (String b))
      with (if bool_decide (a = b) then true else TimeCompare (String a) (String b)).
    split.
    + case_bool_decide; [by left|by right].
    + intros [->|Ht]; case_bool_decide; done.
Qed.

(** A map criteria, entry by entry. *)
Lemma InterfaceEquals_Map_entries (cm : gmap string value) (em : gomap) :
  InterfaceEquals (Map (Some cm)) (Map em) = true ↔
  ∀ k v, cm !! k = Some v → InterfaceEquals v (map_index em k) = true.
Proof. rewrite InterfaceEquals_Map. apply map_fold_andb. Qed.

Lemma copy_value_Map (g : gmap string value) :
  copy_value (Map (Some g)) =
  if bool_decide (size g = 0) then Map None else Map (Some (copy_value <$> g)).
Proof. simpl. rewrite MapCopy_body_fmap. by case_bool_decide. Qed.

(** A tree without NaN matches itself and its copy. *)
Lemma InterfaceEquals_self_copy (v : value) :
  no_nan v = true →
  InterfaceEquals v v = true ∧ InterfaceEquals v (copy_value v) = true.
Proof.
  induction v as [|b|n|f|s|s| |l _| |m IH] using value_tree_ind; intros Hv;
    try (split; reflexivity).
  - destruct b; split; reflexivity.
  - assert (InterfaceEquals (Int n) (Int n) = true) as Hn; [|by split].
    simpl. by rewrite bool_decide_eq_true_2.
  - assert (InterfaceEquals (Float64 f) (Float64 f) = true) as Hf; [|by split].
    simpl in *. unfold PrimFloat.is_nan in Hv.
    apply negb_true_iff, negb_false_iff in Hv. by rewrite Hv.
  - assert (InterfaceEquals (String s) (String s) = true) as Hs; [|by split].
    change (InterfaceEquals (String s) (String s))
      with (if bool_decide (s = s) then true else TimeCompare (String s) (String s)).
    by rewrite bool_decide_eq_true_2.
  - assert (InterfaceEquals (JsonNumber s) (JsonNumber s) = true) as Hs; [|by split].
    simpl. by rewrite bool_decide_eq_true_2.
  - simpl in Hv. pose proof (proj1 (map_fold_andb (λ _ x, no_nan x) m) Hv) as Hm.
    split.
    + apply InterfaceEquals_Map_entries. intros k x Hk. simpl. rewrite Hk. simpl.
      apply (IH k x Hk). by apply (Hm k x).
    + rewrite copy_value_Map. case_bool_decide as Hsz.
      * apply map_size_empty_iff in Hsz as ->. reflexivity.
      * apply InterfaceEquals_Map_entries. intros k x Hk. simpl.
        rewrite lookup_fmap, Hk. simpl. apply (IH k x Hk). by apply (Hm k x).
Qed.

(** X4: a tree that holds no NaN matches itself, and matches its own copy,
    although the copy has nil where the tree has an empty container; a NaN
    does not match itself. *)
Theorem X4_matches_itself_and_its_copy :
  (∀ v, no_nan v = true →
        InterfaceEquals v v = true ∧ InterfaceEquals v (copy_value v) = true) ∧
  InterfaceEquals (Float64 nan) (Float64 nan) = false.
Proof. split; [exact InterfaceEquals_self_copy|reflexivity]. Qed.

(** The JSON text of a [json.Number] never starts with a quote, that of a
    string always does. *)
Lemma json_Number_String_differ (s n : string) :
  json_Marshal_string (String s) ≠ json_Marshal_string (JsonNumber n).
Proof.
  unfold json_Marshal_string. cbn -[isValidNumber json_escape].
  destruct (isValidNumber _) eqn:Hv; simpl; [|discriminate].
  apply isValidNumber_head in Hv as (c & r & -> & Hc).
  intros [= Hq]. by apply Hc.
Qed.

(** X5: a number and a string never match: an [int] or [float64] criteria
    does not match a string that spells a number, and a [json.Number] and a
    string do not match either way round. *)
Theorem X5_number_against_string :
  (∀ n s, InterfaceEquals (Int n) (String s) = false) ∧
  (∀ f s, InterfaceEquals (Float64 f) (String s) = false) ∧
  (∀ s n, InterfaceEquals (String s) (JsonNumber n) = false) ∧
  (∀ n s, InterfaceEquals (JsonNumber n) (String s) = false).
Proof.
  split; [done|]. split; [done|]. split.
  - intros s n. apply InterfaceEquals_String_JsonNumber.
  - intros n s.
    change (InterfaceEquals (JsonNumber n) (String s))
      with (bool_decide (json_Marshal_string (JsonNumber n) = json_Marshal_string (String s))).
    apply bool_decide_eq_false. intros Heq.
    by apply (json_Number_String_differ s n).
Qed.

(** X6: dropping keys from a map criteria keeps a match. *)
Theorem X6_fewer_criteria_keys (cm cm' : gmap string value) (e : value) :
  cm' ⊆ cm →
  InterfaceEquals (Map (Some cm)) e = true →
  InterfaceEquals (Map (Some cm')) e = true.
Proof.
  intros Hsub. rewrite !InterfaceEquals_Map.
  destruct e as [| | | | | | |em]; try done.
  rewrite !map_fold_andb. intros Hall k v Hk. apply Hall.
  by apply (lookup_weaken cm' cm).
Qed.

End MoreMatcherFacts.

(** ** More about comparing times *)

Section MoreTimeFacts.
Context `{rt : GoRuntime}.

(** X7: [TimeCompare] does not depend on the order of its arguments;
    neither does [InterfaceEquals] on two strings. *)
Theorem X7_TimeCompare_symmetric :
  (∀ v1 v2, TimeCompare v1 v2 = TimeCompare v2 v1) ∧
  (∀ a b, InterfaceEquals (String a) (String b) = InterfaceEquals (String b) (String a)).
Proof.
  assert (Hsym : ∀ v1 v2, TimeCompare v1 v2 = TimeCompare v2 v1).
  { intros v1 v2. unfold TimeCompare.
    destruct v1 as [| | | |s1| | |], v2 as [| | | |s2| | |]; try done.
    destruct (time_Parse RFC3339 s1) as [t1|], (time_Parse RFC3339 s2) as [t2|];
      try done.
    unfold Time_eqb. apply bool_decide_ext. naive_solver. }
  split; [exact Hsym|]. intros a b.
  change (InterfaceEquals (String a) (String b))
    with (if bool_decide (a = b) then true else TimeCompare (String a) (String b)).
  change (InterfaceEquals (String b) (String a))
    with (if bool_decide (b = a) then true else TimeCompare (String b) (String a)).
  rewrite (Hsym (String a) (String b)).
  apply (f_equal (λ c : bool, if c then _ else _)), bool_decide_ext. naive_solver.
Qed.

(** X8: [TimeCompare] accepts only two values of type [string] of which at
    least one parses as an RFC 3339 timestamp; a [json.Number] is not a
    [string]. *)
Theorem X8_TimeCompare_needs_a_timestamp (v1 v2 : value) :
  TimeCompare v1 v2 = true →
  ∃ s1 s2, v1 = String s1 ∧ v2 = String s2 ∧
    (is_Some (time_Parse RFC3339 s1) ∨ is_Some (time_Parse RFC3339 s2)).
Proof.
  unfold TimeCompare.
  destruct v1 as [| | | |s1| | |], v2 as [| | | |s2| | |]; try done.
  intros Ht. exists s1, s2. split; [done|]. split; [done|].
  destruct (time_Parse RFC3339 s1) as [t1|]; [left; eauto|].
  destruct (time_Parse RFC3339 s2) as [t2|]; [right; eauto|done].
Qed.

End MoreTimeFacts.

(** ** More about merging and copying *)

Lemma map_has_keys (m : gomap) (k : string) : map_has m k = true ↔ k ∈ map_keys m.
Proof.
  unfold map_keys. destruct m as [g|]; simpl.
  - by rewrite bool_decide_eq_true, elem_of_dom.
  - rewrite dom_empty_L. set_solver.
Qed.

Lemma map_keys_lookup (m : gomap) (k : string) : k ∈ map_keys m ↔ is_Some (map_lookup m k).
Proof.
  unfold map_keys. destruct m as [g|]; simpl.
  - apply elem_of_dom.
  - rewrite dom_empty_L. split; [set_solver|by intros [? ?]].
Qed.

Lemma MapIsCompatible_subseteq (big small : gomap) :
  MapIsCompatible big small = true ↔ map_keys small ⊆ map_keys big.
Proof.
  unfold MapIsCompatible. destruct small as [g|]; simpl.
  - rewrite map_fold_andb. unfold map_keys at 1. simpl. split.
    + intros Hall k [v Hk]%elem_of_dom. apply map_has_keys. by apply (Hall k v).
    + intros Hsub k v Hk. apply map_has_keys, Hsub, elem_of_dom. by exists v.
  - unfold map_keys at 1. simpl. rewrite dom_empty_L. split; [set_solver|done].
Qed.

(** X9: [MapIsCompatible] holds exactly when every key of [small] is a key
    of [big], whatever the values; it is reflexive and transitive, and the
    nil map is compatible with every map. *)
Theorem X9_MapIsCompatible_keys :
  (∀ big small, MapIsCompatible big small = true ↔ map_keys small ⊆ map_keys big) ∧
  (∀ m, MapIsCompatible m m = true) ∧
  (∀ m1 m2 m3, MapIsCompatible m1 m2 = true → MapIsCompatible m2 m3 = true →
               MapIsCompatible m1 m3 = true) ∧
  (∀ big, MapIsCompatible big None = true).
Proof.
  split; [exact MapIsCompatible_subseteq|]. split; [|split].
  - intros m. by apply MapIsCompatible_subseteq.
  - intros m1 m2 m3. rewrite !MapIsCompatible_subseteq. set_solver.
  - done.
Qed.

Lemma MapCombine_lookup (dst src : gomap) (k : string) :
  len_map dst ≠ 0 →
  map_lookup (MapCombine dst src) k =
  match map_lookup src k with
  | Some v => Some v
  | None => map_lookup dst k
  end.
Proof.
  intros Hdst. unfold MapCombine. rewrite bool_decide_eq_false_2 by done.
  case_bool_decide as Hsrc.
  - by rewrite (len_map_0 src Hsrc).
  - destruct dst as [d|]; [|done]. rewrite MapCombine_loop. simpl.
    rewrite lookup_union. destruct src as [g|]; simpl.
    + destruct (g !! k), (d !! k); done.
    + rewrite lookup_empty. by destruct (d !! k).
Qed.

(** The loop of [MapAdd] leaves the union of the two maps, [dst] first. *)
Lemma MapAdd_loop (d : gmap string value) (src : gomap) :
  range_map src (λ k v dst, if negb (map_has dst k) then map_assign dst k v else dst)
    (Some d) = Some (d ∪ default ∅ src).
Proof.
  destruct src as [g|]; simpl; [|by rewrite (right_id_L ∅ (∪))].
  apply (map_fold_weak_ind (λ r m, r = Some (d ∪ m))).
  - by rewrite (right_id_L ∅ (∪)).
  - intros k x m r Hm ->. simpl. case_bool_decide as Hk; simpl.
    + f_equal. apply map_eq. intros j. rewrite !lookup_union.
      destruct (decide (j = k)) as [->|Hne].
      * rewrite lookup_insert_eq, Hm. rewrite lookup_union, Hm in Hk.
        destruct Hk as [y Hy]. by destruct (d !! k).
      * by rewrite lookup_insert_ne.
    + f_equal. rewrite insert_union_r; [done|].
      destruct (d !! k) as [y|] eqn:Hd; [|done].
      exfalso. apply Hk. exists y. by apply lookup_union_Some_l.
Qed.

Lemma MapAdd_lookup (dst src : gomap) (k : string) :
  len_map dst ≠ 0 →
  map_lookup (MapAdd dst src) k =
  match map_lookup dst k with
  | Some v => Some v
  | None => map_lookup src k
  end.
Proof.
  intros Hdst. unfold MapAdd. rewrite bool_decide_eq_false_2 by done.
  case_bool_decide as Hsrc.
  - rewrite (len_map_0 src Hsrc). by destruct (map_lookup dst k).
  - destruct dst as [d|]; [|done]. rewrite MapAdd_loop. simpl.
    rewrite lookup_union. destruct src as [g|]; simpl.
    + destruct (d !! k), (g !! k); done.
    + rewrite lookup_empty. by destruct (d !! k).
Qed.

(** X10: on a non-empty [dst], [MapAdd] keeps every entry of [dst] and adds
    the entries of [src] at the keys [dst] lacks; on an empty [dst] it
    returns [MapCopy src]. *)
Theorem X10_MapAdd_dst_wins (dst src : gomap) :
  (len_map dst ≠ 0 →
   ∀ k, map_lookup (MapAdd dst src) k =
        match map_lookup dst k with
        | Some v => Some v
        | None => map_lookup src k
        end) ∧
  (len_map dst = 0 → MapAdd dst src = MapCopy src).
Proof.
  split.
  - intros Hdst k. by apply MapAdd_lookup.
  - intros Hdst. unfold MapAdd. by rewrite bool_decide_eq_true_2.
Qed.

(** X11: on two non-empty maps, adding [src] to [dst] is combining [dst]
    into [src]: [MapAdd dst src = MapCombine src dst]. *)
Theorem X11_MapAdd_is_MapCombine_swapped (dst src : gomap) :
  len_map dst ≠ 0 → len_map src ≠ 0 → MapAdd dst src = MapCombine src dst.
Proof.
  intros Hdst Hsrc. unfold MapAdd, MapCombine.
  rewrite !bool_decide_eq_false_2 by done.
  destruct dst as [d|]; [|done]. destruct src as [g|]; [|done].
  by rewrite MapAdd_loop, MapCombine_loop.
Qed.

Lemma map_keys_MapCopy (m : gomap) : map_keys (MapCopy m) = map_keys m.
Proof.
  destruct m as [g|]; [|done]. unfold map_keys. simpl.
  rewrite MapCopy_body_fmap. case_bool_decide as Hsz; simpl.
  - by apply map_size_empty_iff in Hsz as ->.
  - by rewrite dom_fmap_L.
Qed.

Lemma map_keys_len_0 (m : gomap) : len_map m = 0 → map_keys m = ∅.
Proof.
  destruct m as [g|]; [|by unfold map_keys; simpl; rewrite dom_empty_L].
  simpl. intros ->%map_size_empty_iff. unfold map_keys. simpl. by rewrite dom_empty_L.
Qed.

Lemma map_keys_MapCombine (dst src : gomap) :
  map_keys (MapCombine dst src) = map_keys dst ∪ map_keys src.
Proof.
  unfold MapCombine. case_bool_decide as Hdst.
  - rewrite map_keys_MapCopy, (map_keys_len_0 dst Hdst). set_solver.
  - case_bool_decide as Hsrc.
    + rewrite (map_keys_len_0 src Hsrc). set_solver.
    + destruct dst as [d|]; [|done]. rewrite MapCombine_loop.
      unfold map_keys. simpl. rewrite dom_union_L. set_solver.
Qed.

Lemma map_keys_MapAdd (dst src : gomap) :
  map_keys (MapAdd dst src) = map_keys dst ∪ map_keys src.
Proof.
  unfold MapAdd. case_bool_decide as Hdst.
  - rewrite map_keys_MapCopy, (map_keys_len_0 dst Hdst). set_solver.
  - case_bool_decide as Hsrc.
    + rewrite (map_keys_len_0 src Hsrc). set_solver.
    + destruct dst as [d|]; [|done]. rewrite MapAdd_loop.
      unfold map_keys. simpl. by rewrite dom_union_L.
Qed.

(** X12: whatever the two maps, the keys of [MapCombine dst src] and of
    [MapAdd dst src] are the keys of [dst] together with the keys of [src],
    so each result is compatible, in the sense of [MapIsCompatible], with
    both of its arguments. *)
Theorem X12_merge_keys (dst src : gomap) :
  map_keys (MapCombine dst src) = map_keys dst ∪ map_keys src ∧
  map_keys (MapAdd dst src) = map_keys dst ∪ map_keys src ∧
  MapIsCompatible (MapCombine dst src) dst = true ∧
  MapIsCompatible (MapCombine dst src) src = true ∧
  MapIsCompatible (MapAdd dst src) dst = true ∧
  MapIsCompatible (MapAdd dst src) src = true.
Proof.
  rewrite !MapIsCompatible_subseteq, map_keys_MapCombine, map_keys_MapAdd.
  set_solver.
Qed.

Lemma MapReplace_None_iff (dst src : gomap) : MapReplace dst src = None ↔ dst = None.
Proof.
  unfold MapReplace. case_bool_decide; [done|].
  destruct dst as [d|]; [|done]. simpl.
  by rewrite map_fold_foldr, MapReplace_loop_Some.
Qed.

(** Two Go maps are equal when both or neither are nil and they hold the
    same entries. *)
Lemma gomap_eq (m1 m2 : gomap) :
  (m1 = None ↔ m2 = None) → (∀ k, map_lookup m1 k = map_lookup m2 k) → m1 = m2.
Proof.
  destruct m1 as [g1|], m2 as [g2|]; intros Hnil Hk; try done.
  - f_equal. apply map_eq, Hk.
  - by destruct (proj2 Hnil).
  - by destruct (proj1 Hnil).
Qed.

(** X13: replacing twice from the same [src] changes nothing more, and on a
    non-empty [dst] the result of [MapReplace] is the result of [MapCombine]
    cut down to the keys of [dst]. *)
Theorem X13_MapReplace_idempotent (dst src : gomap) :
  MapReplace (MapReplace dst src) src = MapReplace dst src ∧
  (len_map dst ≠ 0 →
   ∀ k, k ∈ map_keys dst →
        map_lookup (MapReplace dst src) k = map_lookup (MapCombine dst src) k).
Proof.
  split.
  - apply gomap_eq.
    + by rewrite !MapReplace_None_iff.
    + intros k. rewrite !MapReplace_lookup.
      by destruct (map_lookup dst k), (map_lookup src k).
  - intros Hdst k [v Hk]%map_keys_lookup.
    rewrite MapReplace_lookup, MapCombine_lookup, Hk by done.
    by destruct (map_lookup src k).
Qed.

Lemma no_empty_strip_empty (v : value) : no_empty (strip_empty v) = true.
Proof.
  induction v as [| | | | | | |l IH| |m IH] using value_tree_ind; try done.
  - simpl. case_bool_decide as Hl; [done|]. simpl.
    rewrite length_fmap, bool_decide_eq_false_2 by done. simpl.
    apply forallb_forall. intros y Hy.
    apply list_elem_of_In, list_elem_of_fmap in Hy as (x & -> & Hx).
    by apply (proj1 (Forall_forall _ _) IH).
  - simpl. case_bool_decide as Hm; [done|]. simpl.
    rewrite map_size_fmap, bool_decide_eq_false_2 by done. simpl.
    apply map_fold_andb. intros k y Hy.
    apply lookup_fmap_Some in Hy as (x & <- & Hx). by apply (IH k x).
Qed.

(** X14: a copy holds no empty container, and copying it again gives the
    same tree: [MapCopy], [ArrayCopy] and the copy of a value are
    idempotent. *)
Theorem X14_copy_idempotent :
  (∀ v, no_empty (copy_value v) = true ∧ copy_value (copy_value v) = copy_value v) ∧
  (∀ m, MapCopy (MapCopy m) = MapCopy m) ∧
  (∀ a, ArrayCopy (ArrayCopy a) = ArrayCopy a).
Proof.
  assert (Hv : ∀ v, no_empty (copy_value v) = true ∧
                    copy_value (copy_value v) = copy_value v).
  { intros v. rewrite copy_value_strip_empty. split; [apply no_empty_strip_empty|].
    rewrite copy_value_strip_empty. apply strip_empty_no_empty, no_empty_strip_empty. }
  split; [exact Hv|]. split.
  - intros m. pose proof (proj2 (Hv (Map m))) as Hm.
    destruct m as [g|]; [|done]. simpl in Hm.
    destruct (MapCopy_body copy_value g) as [g'|] eqn:Hg; simpl in *; [|by rewrite Hg].
    rewrite Hg. by injection Hm.
  - intros a. pose proof (proj2 (Hv (Slice a))) as Ha.
    destruct a as [l|]; [|done]. simpl in Ha.
    destruct (ArrayCopy_body copy_value l) as [l'|] eqn:Hl; simpl in *; [|by rewrite Hl].
    rewrite Hl. by injection Ha.
Qed.

(** X15: copying keeps the number of entries and the keys of a map and the
    length of a slice, and returns nil exactly on an empty input: the copy
    is never an empty map or an empty slice. *)
Theorem X15_copy_keeps_size :
  (∀ m, len_map (MapCopy m) = len_map m ∧ map_keys (MapCopy m) = map_keys m ∧
        (MapCopy m = None ↔ len_map m = 0)) ∧
  (∀ a, len_slice (ArrayCopy a) = len_slice a ∧
        (ArrayCopy a = None ↔ len_slice a = 0)).
Proof.
  split.
  - intros m. split; [|split; [apply map_keys_MapCopy|]].
    + destruct m as [g|]; [|done]. simpl. rewrite MapCopy_body_fmap.
      case_bool_decide; [done|]. simpl. by rewrite map_size_fmap.
    + destruct m as [g|]; [|done]. simpl. rewrite MapCopy_body_fmap.
      by case_bool_decide.
  - intros a. split.
    + destruct a as [l|]; [|done]. simpl. rewrite ArrayCopy_body_fmap.
      case_bool_decide; [done|]. simpl. by rewrite length_fmap.
    + destruct a as [l|]; [|done]. simpl. rewrite ArrayCopy_body_fmap.
      by case_bool_decide.
Qed.

(** ** Merging and matching together *)

Section MergeMatchFacts.
Context `{rt : GoRuntime}.

Lemma no_nan_entry (g : gmap string value) k v :
  no_nan (Map (Some g)) = true → g !! k = Some v → no_nan v = true.
Proof. simpl. intros Hg Hk. by apply (proj1 (map_fold_andb (λ _ x, no_nan x) g) Hg k v). Qed.

(** X16: a merged map satisfies, as the existing side of a match, the map
    that wins the merge: [MapCombine dst src] is matched by [src] and
    [MapAdd dst src] by [dst], when the criteria holds no NaN. *)
Theorem X16_merge_result_matches (dst src : gomap) :
  (no_nan (Map src) = true →
   InterfaceEquals (Map src) (Map (MapCombine dst src)) = true) ∧
  (no_nan (Map dst) = true →
   InterfaceEquals (Map dst) (Map (MapAdd dst src)) = true).
Proof.
  split.
  - intros Hsrc. destruct src as [g|]; [|by rewrite InterfaceEquals_Map].
    destruct (decide (len_map dst = 0)) as [Hdst|Hdst].
    + unfold MapCombine. rewrite bool_decide_eq_true_2 by done.
      apply (proj2 (InterfaceEquals_self_copy (Map (Some g)) Hsrc)).
    + apply InterfaceEquals_Map_entries. intros k v Hk.
      rewrite map_index_lookup, MapCombine_lookup by done. simpl. rewrite Hk. simpl.
      apply InterfaceEquals_self_copy. by apply (no_nan_entry g k).
  - intros Hdst. destruct dst as [d|]; [|by rewrite InterfaceEquals_Map].
    apply InterfaceEquals_Map_entries. intros k v Hk.
    assert (len_map (Some d) ≠ 0) as Hlen.
    { simpl. intros ->%map_size_empty_iff. by rewrite lookup_empty in Hk. }
    rewrite map_index_lookup, MapAdd_lookup by done. simpl. rewrite Hk. simpl.
    apply InterfaceEquals_self_copy. by apply (no_nan_entry d k).
Qed.

(** X17: when a map criteria without nil values matches a map, that map
    has every key of the criteria: it is compatible with the criteria in the
    sense of [MapIsCompatible]. *)
Theorem X17_match_gives_compatible (cm em : gomap) :
  (∀ k v, map_lookup cm k = Some v → v ≠ Nil) →
  InterfaceEquals (Map cm) (Map em) = true →
  MapIsCompatible em cm = true.
Proof.
  intros Hnn Hm. apply MapIsCompatible_subseteq.
  intros k [v Hk]%map_keys_lookup. apply map_keys_lookup.
  destruct cm as [g|]; [|done]. simpl in Hk.
  pose proof (proj1 (InterfaceEquals_Map_entries g em) Hm k v Hk) as Hv.
  rewrite map_index_lookup in Hv.
  destruct (map_lookup em k) as [x|]; [by eexists|]. simpl in Hv.
  destruct (Hnn k v Hk).
  destruct v as [| | | | | |[?|]|[?|]]; done.
Qed.

End MergeMatchFacts.

(** ** More about walking *)

Lemma forest_visits_app (l1 l2 : list (gmap string value)) :
  forest_visits (l1 ++ l2) = forest_visits l1 ++ forest_visits l2.
Proof. unfold forest_visits. by rewrite map_app, concat_app. Qed.

Lemma forest_size_app (l1 l2 : list (gmap string value)) :
  forest_size (l1 ++ l2) = forest_size l1 + forest_size l2.
Proof. induction l1 as [|m l1 IH]; simpl in *; [done|]. rewrite IH. lia. Qed.

(** The walk looks through slices: it visits what it visits from the maps
    found behind them. *)
Lemma map_visits_objects_at (v : value) : map_visits v = forest_visits (objects_at v).
Proof.
  induction v as [| | | | | | |l IH| |m _] using value_tree_ind; try done.
  - simpl. induction IH as [|x l Hx _ IHl]; simpl; [done|].
    by rewrite forest_visits_app, IHl, Hx.
  - unfold forest_visits. simpl. by rewrite app_nil_r.
Qed.

Lemma objects_at_size (v : value) : forest_size (objects_at v) ≤ vsize v.
Proof.
  induction v as [| | | | | | |l IH| |m _] using value_tree_ind; simpl; try lia.
  induction IH as [|x l Hx _ IHl]; simpl; [lia|].
  rewrite forest_size_app. lia.
Qed.

(** The maps directly below a map, behind slices or not. *)
Lemma next_level_cons (m : gmap string value) (lvl : list (gmap string value)) :
  next_level (m :: lvl) = next_level [m] ++ next_level lvl.
Proof. unfold next_level. simpl. by rewrite app_nil_r. Qed.

Lemma map_visits_Map (m : gmap string value) :
  map_visits (Map (Some m)) = Some m :: forest_visits (next_level [m]).
Proof.
  simpl. f_equal. rewrite map_fold_foldr. unfold next_level. simpl.
  rewrite app_nil_r.
  induction (map_to_list m) as [|[k x] l IH]; simpl; [done|].
  by rewrite forest_visits_app, IH, map_visits_objects_at.
Qed.

Lemma next_level_size (m : gmap string value) :
  forest_size (next_level [m]) < vsize (Map (Some m)).
Proof.
  simpl. rewrite map_fold_foldr. unfold next_level. simpl. rewrite app_nil_r.
  apply Nat.lt_succ_r.
  induction (map_to_list m) as [|[k x] l IH]; simpl; [done|].
  rewrite forest_size_app. pose proof (objects_at_size x). lia.
Qed.

Lemma next_level_forest_size (lvl : list (gmap string value)) :
  lvl ≠ [] → forest_size (next_level lvl) < forest_size lvl.
Proof.
  induction lvl as [|m lvl IH]; [done|]. intros _.
  rewrite next_level_cons, forest_size_app. simpl.
  pose proof (next_level_size m) as Hm. simpl in Hm.
  destruct lvl as [|m' lvl]; [unfold next_level at 2; simpl; lia|].
  specialize (IH ltac:(done)). simpl in *. lia.
Qed.

(** One level of the walk: the maps of the level, then what is below. *)
Lemma forest_visits_level (lvl : list (gmap string value)) :
  forest_visits lvl ≡ₚ (Some <$> lvl) ++ forest_visits (next_level lvl).
Proof.
  induction lvl as [|m lvl IH]; [done|].
  rewrite next_level_cons, forest_visits_app.
  change (forest_visits (m :: lvl))
    with (map_visits (Map (Some m)) ++ forest_visits lvl).
  rewrite map_visits_Map, IH. simpl. constructor.
  rewrite !(assoc_L (++)). f_equiv. apply Permutation_app_comm.
Qed.

Lemma forest_visits_levels (n : nat) (lvl : list (gmap string value)) :
  forest_size lvl ≤ n → forest_visits lvl ≡ₚ Some <$> levels_from n lvl.
Proof.
  revert lvl. induction n as [|n IH]; intros lvl Hn.
  - destruct lvl as [|m lvl]; [done|]. simpl in Hn. lia.
  - destruct lvl as [|m lvl]; [done|].
    rewrite forest_visits_level.
    change (levels_from (S n) (m :: lvl))
      with ((m :: lvl) ++ levels_from n (next_level (m :: lvl))).
    rewrite fmap_app. f_equiv. apply IH.
    pose proof (next_level_forest_size (m :: lvl) ltac:(done)). lia.
Qed.

(** The visit list holds the maps of the level-order walk, each as many
    times, and no nil map. *)
Lemma map_visits_level_order (v : value) :
  map_visits v ≡ₚ WalkObjects_spec v ∧
  (∀ m, m ∈ map_visits v → m ≠ None).
Proof.
  assert (Hperm : map_visits v ≡ₚ WalkObjects_spec v).
  { rewrite map_visits_objects_at. unfold WalkObjects_spec.
    apply forest_visits_levels, objects_at_size. }
  split; [exact Hperm|].
  intros m Hm. rewrite Hperm in Hm. unfold WalkObjects_spec in Hm.
  apply list_elem_of_fmap in Hm as (g & -> & _). done.
Qed.

(** The recording callback, run over a list, appends the list. *)
Lemma until_error_record_map (l visited : list gomap) :
  until_error record_map l visited = (visited ++ l, None).
Proof.
  revert visited. induction l as [|m l IH]; intros visited; simpl.
  - by rewrite app_nil_r.
  - unfold and_then. simpl. rewrite IH. by rewrite <- app_assoc.
Qed.

(** The walk with the recording callback returns nil and leaves the record
    extended by the visit list. *)
Lemma IterateMapsInInterface_record_map (v : value) (visited : list gomap) :
  IterateMapsInInterface v record_map visited = (visited ++ map_visits v, None).
Proof.
  by rewrite IterateMapsInInterface_until_error, until_error_record_map.
Qed.

(** X18: run with the callback that records the map it is given,
    [IterateMapsInInterface] returns nil, and the calls it has made are, each
    as many times though not in that order, the maps of the level-order
    walk: every map in the tree, behind slices or not, never a nil map. *)
Theorem X18_walk_visits_every_map (v : value) :
  ∃ visited,
    IterateMapsInInterface v record_map [] = (visited, None) ∧
    visited ≡ₚ WalkObjects_spec v ∧
    (∀ m, m ∈ visited → m ≠ None).
Proof.
  exists (map_visits v). rewrite IterateMapsInInterface_record_map.
  split; [done|]. apply map_visits_level_order.
Qed.

Section MoreWalkerFacts.
Context {St Err : Type}.

(** An error of a run is the error of one of its calls. *)
Lemma until_error_origin {A} (f : A → action St Err) (l : list A) (s s' : St) (e : Err) :
  until_error f l s = (s', Some e) → ∃ x s0, x ∈ l ∧ f x s0 = (s', Some e).
Proof.
  revert s. induction l as [|x l IH]; intros s; simpl; [done|].
  unfold and_then. destruct (f x s) as [s1 [e1|]] eqn:Hx.
  - intros [= <- <-]. exists x, s. split; [left|done].
  - intros Hl. destruct (IH s1 Hl) as (y & s0 & Hy & Hf).
    exists y, s0. split; [by right|done].
Qed.

(** X19: an error returned by a walk is an error its callback returned, on
    a map (or a field) of the tree, and the state returned is the one that
    call left; so a callback that never fails makes the walk return nil. *)
Theorem X19_walk_error_origin (v : value) :
  (∀ (callback : MapIterFunc St Err) s s' e,
     IterateMapsInInterface v callback s = (s', Some e) →
     ∃ m s0, m ∈ map_visits v ∧ callback m s0 = (s', Some e)) ∧
  (∀ (callback : FieldIterFunc St Err) s s' e,
     IterateFieldsInInterface v callback s = (s', Some e) →
     ∃ k x s0, (k, x) ∈ field_visits v ∧ callback k x s0 = (s', Some e)) ∧
  (∀ (callback : MapIterFunc St Err) s,
     (∀ m s0, (callback m s0).2 = None) →
     (IterateMapsInInterface v callback s).2 = None) ∧
  (∀ (callback : FieldIterFunc St Err) s,
     (∀ k x s0, (callback k x s0).2 = None) →
     (IterateFieldsInInterface v callback s).2 = None).
Proof.
  assert (Hmaps : ∀ (callback : MapIterFunc St Err) s s' e,
     IterateMapsInInterface v callback s = (s', Some e) →
     ∃ m s0, m ∈ map_visits v ∧ callback m s0 = (s', Some e)).
  { intros callback s s' e. rewrite IterateMapsInInterface_until_error.
    apply until_error_origin. }
  assert (Hfields : ∀ (callback : FieldIterFunc St Err) s s' e,
     IterateFieldsInInterface v callback s = (s', Some e) →
     ∃ k x s0, (k, x) ∈ field_visits v ∧ callback k x s0 = (s', Some e)).
  { intros callback s s' e. rewrite IterateFieldsInInterface_until_error.
    intros ([k x] & s0 & Hin & Hf)%until_error_origin. by exists k, x, s0. }
  split; [exact Hmaps|]. split; [exact Hfields|]. split.
  - intros callback s Hok.
    destruct (IterateMapsInInterface v callback s) as [s' [e|]] eqn:Hw; [|done].
    destruct (Hmaps _ _ _ _ Hw) as (m & s0 & _ & Hf).
    specialize (Hok m s0). by rewrite Hf in Hok.
  - intros callback s Hok.
    destruct (IterateFieldsInInterface v callback s) as [s' [e|]] eqn:Hw; [|done].
    destruct (Hfields _ _ _ _ Hw) as (k & x & s0 & _ & Hf).
    specialize (Hok k x s0). by rewrite Hf in Hok.
Qed.

End MoreWalkerFacts.

(** In a tree without an empty container the walk meets no empty map. *)
Lemma map_visits_no_empty (v : value) (m : gomap) :
  no_empty v = true → m ∈ map_visits v → len_map m ≠ 0.
Proof.
  revert m.
  induction v as [| | | | | | |l IH| |g IH] using value_tree_ind; intros m Hv Hm;
    try by apply elem_of_nil in Hm.
  - simpl in *. apply andb_true_iff in Hv as [_ Hall].
    rewrite forallb_forall in Hall.
    induction IH as [|x l Hx _ IHl]; simpl in *; [by apply elem_of_nil in Hm|].
    apply elem_of_app in Hm as [Hm|Hm].
    + apply Hx; [|done]. apply Hall. by left.
    + apply IHl; [|done]. intros y Hy. apply Hall. by right.
  - simpl in Hv. apply andb_true_iff in Hv as [Hsz Hall].
    apply negb_true_iff, bool_decide_eq_false in Hsz.
    pose proof (proj1 (map_fold_andb (λ _ x, no_empty x) g) Hall) as Hg.
    rewrite map_visits_Map in Hm. apply elem_of_cons in Hm as [->|Hm]; [done|].
    unfold next_level in Hm. simpl in Hm. rewrite app_nil_r in Hm.
    assert (Hl : ∀ k x, (k, x) ∈ map_to_list g → g !! k = Some x).
    { intros k x. apply elem_of_map_to_list. }
    induction (map_to_list g) as [|[k x] l IHl]; simpl in Hm;
      [by apply elem_of_nil in Hm|].
    rewrite forest_visits_app, <- map_visits_objects_at in Hm.
    apply elem_of_app in Hm as [Hm|Hm].
    + assert (g !! k = Some x) as Hk by (apply Hl; left).
      apply (IH k x Hk); [by apply (Hg k x)|done].
    + apply IHl; [done|]. intros k' x' Hin. apply Hl. by right.
Qed.

(** X20: run over a copy with the recording callback,
    [IterateMapsInInterface] makes the calls of the level-order walk of the
    copy, none of them on an empty map; over the copy of an empty map it
    returns nil without a call, whatever the callback; over the empty map
    itself it makes one call, on that map, and returns what the call
    returns. *)
Theorem X20_walk_over_copy_meets_no_empty_map :
  (∀ v, ∃ visited,
     IterateMapsInInterface (copy_value v) record_map [] = (visited, None) ∧
     visited ≡ₚ WalkObjects_spec (copy_value v) ∧
     (∀ m, m ∈ visited → len_map m ≠ 0)) ∧
  (∀ (St Err : Type) (callback : MapIterFunc St Err) (s : St) (m : gomap),
     len_map m = 0 →
     IterateMapsInInterface (Map (MapCopy m)) callback s = (s, None)) ∧
  (∀ (St Err : Type) (callback : MapIterFunc St Err) (s : St),
     IterateMapsInInterface (Map (Some ∅)) callback s = callback (Some ∅) s).
Proof.
  split; [|split].
  - intros v. exists (map_visits (copy_value v)).
    rewrite IterateMapsInInterface_record_map.
    split; [done|]. split; [apply map_visits_level_order|].
    intros m. apply map_visits_no_empty.
    rewrite copy_value_strip_empty. apply no_empty_strip_empty.
  - intros St Err callback s [g|] Hlen; [|done]. simpl in Hlen.
    change (Map (MapCopy (Some g))) with (copy_value (Map (Some g))).
    rewrite copy_value_Map, bool_decide_eq_true_2 by done. done.
  - intros St Err callback s. simpl. unfold and_then, each_entry.
    rewrite map_fold_empty. by destruct (callback (Some ∅) s) as [s' [e|]].
Qed.

(** ** Rendering values as request parameters *)

Lemma string_app_cons (c : ascii) (s1 s2 : string) :
  String.String c s1 +:+ s2 = String.String c (s1 +:+ s2).
Proof. reflexivity. Qed.

Lemma string_app_nil_l (s : string) : "" +:+ s = s.
Proof. reflexivity. Qed.

Lemma string_app_nil_r (s : string) : s +:+ "" = s.
Proof.
  induction s as [|c s IH]; [done|].
  rewrite string_app_cons. by f_equal.
Qed.

Lemma string_app_assoc (s1 s2 s3 : string) : (s1 +:+ s2) +:+ s3 = s1 +:+ s2 +:+ s3.
Proof.
  induction s1 as [|c s1 IH]; [done|].
  rewrite !string_app_cons. by f_equal.
Qed.

Lemma drop_last_snoc (s : string) (c : ascii) :
  drop_last (s +:+ String.String c EmptyString) = s.
Proof.
  induction s as [|c' s IH]; [done|].
  rewrite string_app_cons. simpl. rewrite IH.
  destruct s; [done|]. by rewrite string_app_cons.
Qed.

Lemma TrimRight_comma_snoc (s : string) :
  TrimRight_comma (s +:+ ",") = TrimRight_comma s.
Proof.
  induction s as [|c s IH]; [done|].
  rewrite string_app_cons. simpl. by rewrite IH.
Qed.

(** Trimming changes nothing in a string that does not end with a comma. *)
Lemma TrimRight_comma_id (s : string) :
  (∀ s', s ≠ s' +:+ ",") → TrimRight_comma s = s.
Proof.
  induction s as [|c s IH]; intros Hs; simpl; [done|].
  destruct s as [|c' s].
  - simpl. destruct (Ascii.eqb_spec c ",") as [->|Hc]; [|done].
    by destruct (Hs "").
  - rewrite IH; [done|].
    intros s' Heq. apply (Hs (String.String c s')).
    rewrite string_app_cons. by rewrite Heq.
Qed.

(** A trimmed string does not end with a comma. *)
Lemma TrimRight_comma_end (s s' : string) : TrimRight_comma s ≠ s' +:+ ",".
Proof.
  revert s'. induction s as [|c s IH]; intros s'; simpl.
  - by destruct s'.
  - destruct (TrimRight_comma s) as [|c' r] eqn:Hr.
    + destruct (Ascii.eqb_spec c ",") as [->|Hc]; [by destruct s'|].
      destruct s' as [|? [|? ?]]; [| |]; intros [= ]; done.
    + destruct s' as [|c'' s'']; [discriminate|].
      rewrite string_app_cons. intros [= <- Heq]. by apply (IH s'').
Qed.

(** The decimal digits of a number do not start with a quote. *)
Lemma pretty_N_go_head (x : N) (s : string) :
  (∃ c r, s = String.String c r ∧ c ≠ "034"%char) →
  ∃ c r, pretty_N_go x s = String.String c r ∧ c ≠ "034"%char.
Proof.
  revert s. induction (N.lt_wf_0 x) as [x _ IH]; intros s Hs.
  destruct (decide (x = 0)%N) as [->|Hx]; [by rewrite pretty_N_go_0|].
  rewrite pretty_N_go_step by lia. apply IH.
  - apply N.div_lt; lia.
  - eexists _, _. split; [done|]. unfold pretty_N_char. by repeat case_match.
Qed.

Lemma pretty_Z_head (n : Z) :
  ∃ c r, pretty n = String.String c r ∧ c ≠ "034"%char.
Proof.
  assert (Hpos : ∀ p : positive, ∃ c r, pretty p = String.String c r ∧ c ≠ "034"%char).
  { intros p. unfold pretty, pretty_positive, pretty, pretty_N.
    rewrite decide_False by done. rewrite pretty_N_go_step by lia.
    apply pretty_N_go_head. eexists _, _. split; [done|].
    unfold pretty_N_char. by repeat case_match. }
  destruct n as [|p|p]; unfold pretty, pretty_Z.
  - by eexists _, _.
  - apply Hpos.
  - by eexists _, _.
Qed.

Section ParamFacts.
Context `{rt : GoRuntime}.

(** A JSON text that starts with something else than a quote is returned
    as it is. *)
Lemma InterfaceToJsonString_plain (i : value) (c : ascii) (r : string) :
  json_encode i = Some (String.String c r) → c ≠ "034"%char →
  InterfaceToJsonString i = Some (String.String c r).
Proof.
  intros Hi Hc. unfold InterfaceToJsonString. rewrite Hi.
  by destruct (Ascii.eqb_spec c "034").
Qed.

(** X21: [InterfaceToJsonString] returns a string without its quotes, as
    [encoding/json] escapes it, and nil, a boolean, an [int], a
    [json.Number], a slice or a map as its JSON text; when the value cannot
    be encoded (a NaN, a [json.Number] that is no number) it does not return
    the empty string but panics. *)
Theorem X21_InterfaceToJsonString :
  (∀ s, InterfaceToJsonString (String s) = Some (json_escape s)) ∧
  (∀ i, match i with String _ | Float64 _ => True
        | _ => InterfaceToJsonString i = json_encode i end) ∧
  (∀ i, json_encode i = None → InterfaceToJsonString i = None) ∧
  InterfaceToJsonString (Float64 nan) = None ∧
  InterfaceToJsonString (JsonNumber "1x") = None.
Proof.
  split; [|split; [|split; [|split]]].
  - intros s. unfold InterfaceToJsonString. simpl. unfold json_quote.
    rewrite drop_last_snoc. by destruct (json_escape s).
  - intros [|[]|n|f|s|s|[l|]|[m|]]; try done.
    + destruct (pretty_Z_head n) as (c & r & Hn & Hc). simpl. rewrite Hn.
      apply InterfaceToJsonString_plain; [|done]. simpl. by rewrite Hn.
    + unfold InterfaceToJsonString.
      destruct (json_encode (JsonNumber s)) as [b|] eqn:Hb; [|done].
      cbn -[isValidNumber] in Hb.
      destruct (isValidNumber _) eqn:Hv; [|done].
      apply isValidNumber_head in Hv as (c & r & Hr & Hc).
      injection Hb as <-. rewrite Hr. by destruct (Ascii.eqb_spec c "034").
    + unfold InterfaceToJsonString.
      destruct (json_encode (Slice (Some l))) as [b|] eqn:Hb; [|done].
      simpl in Hb. destruct (mapM json_encode l); [|done]. by injection Hb as <-.
    + unfold InterfaceToJsonString.
      destruct (json_encode (Map (Some m))) as [b|] eqn:Hb; [|done].
      simpl in Hb. destruct (mapM _ _); [|done]. by injection Hb as <-.
  - intros i Hi. unfold InterfaceToJsonString. by rewrite Hi.
  - reflexivity.
  - reflexivity.
Qed.

(** The elements of a slice, each followed by a comma. *)
Lemma param_string_loop (l : list value) (acc : string) :
  foldl (λ str entry,
           str ← str; e ← InterfaceToJsonString entry; Some (str +:+ e +:+ ","))
        (Some acc) l =
  ps ← mapM InterfaceToJsonString l;
  Some (acc +:+ foldr (λ p r, p +:+ "," +:+ r) "" ps).
Proof.
  revert acc. induction l as [|x l IH]; intros acc; simpl.
  - by rewrite string_app_nil_r.
  - destruct (InterfaceToJsonString x) as [e|]; simpl.
    + rewrite IH. destruct (mapM InterfaceToJsonString l) as [ps|]; simpl; [|done].
      by rewrite !string_app_assoc.
    + clear IH. induction l as [|y l IHl]; simpl; [done|]. apply IHl.
Qed.

Lemma TrimRight_comma_joined (ps : list string) :
  TrimRight_comma (foldr (λ p r, p +:+ "," +:+ r) "" ps) =
  TrimRight_comma (String.concat "," ps).
Proof.
  destruct ps as [|p ps]; [done|].
  assert (Hj : ∀ p ps, foldr (λ p r, p +:+ "," +:+ r) "" (p :: ps) =
                       String.concat "," (p :: ps) +:+ ",").
  { clear. intros p ps. revert p. induction ps as [|q ps IH]; intros p; simpl.
    - done.
    - simpl in IH. rewrite IH. by rewrite !string_app_assoc. }
  by rewrite Hj, TrimRight_comma_snoc.
Qed.

(** X22: for a slice, [MapInterfaceToMapString] stores the strings of its
    elements joined by commas, with the commas at the end trimmed off: the
    stored string never ends with a comma, and it is the plain join when
    that does not end with a comma; an element that cannot be encoded makes
    it panic. *)
Theorem X22_slice_parameter (l : list value) :
  param_string (Slice (Some l)) =
    (ps ← mapM InterfaceToJsonString l; Some (TrimRight_comma (String.concat "," ps))) ∧
  (∀ str s', param_string (Slice (Some l)) = Some str → str ≠ s' +:+ ",") ∧
  (∀ ps, mapM InterfaceToJsonString l = Some ps →
         (∀ s', String.concat "," ps ≠ s' +:+ ",") →
         param_string (Slice (Some l)) = Some (String.concat "," ps)) ∧
  param_string (Slice None) = Some "".
Proof.
  assert (Hp : param_string (Slice (Some l)) =
    (ps ← mapM InterfaceToJsonString l; Some (TrimRight_comma (String.concat "," ps)))).
  { unfold param_string. simpl. rewrite param_string_loop.
    destruct (mapM InterfaceToJsonString l) as [ps|]; simpl; [|done].
    by rewrite string_app_nil_l, TrimRight_comma_joined. }
  split; [exact Hp|]. split; [|split; [|done]].
  - intros str s'. rewrite Hp.
    destruct (mapM InterfaceToJsonString l) as [ps|]; simpl; [|done].
    intros [= <-]. apply TrimRight_comma_end.
  - intros ps Hps Hend. rewrite Hp, Hps. simpl. by rewrite TrimRight_comma_id.
Qed.

(** The loop of [MapInterfaceToMapString], by what it has stored or by the
    entry that made it panic. *)
Lemma MapInterfaceToMapString_loop (g : gmap string value) :
  match MapInterfaceToMapString (Some g) with
  | Some r => ∀ k, r !! k = (g !! k) ≫= param_string ∧
                   (is_Some (g !! k) → is_Some (r !! k))
  | None => ∃ k v, g !! k = Some v ∧ param_string v = None
  end.
Proof.
  unfold MapInterfaceToMapString. simpl.
  apply (map_fold_weak_ind (λ (r : option (gmap string string)) m,
    match r with
    | Some r => ∀ k, r !! k = (m !! k) ≫= param_string ∧
                     (is_Some (m !! k) → is_Some (r !! k))
    | None => ∃ k v, m !! k = Some v ∧ param_string v = None
    end)).
  - intros k. rewrite !lookup_empty. split; [done|]. by intros [? ?].
  - intros i x m [r|] Hi IH; simpl.
    + destruct (param_string x) as [str|] eqn:Hx; simpl.
      * intros k. destruct (decide (k = i)) as [->|Hne].
        -- rewrite !lookup_insert_eq. simpl. rewrite Hx. eauto.
        -- rewrite !lookup_insert_ne by done. apply IH.
      * exists i, x. by rewrite lookup_insert_eq.
    + destruct IH as (k & v & Hk & Hv). exists k, v. split; [|done].
      rewrite lookup_insert_ne; [done|]. intros ->. by rewrite Hi in Hk.
Qed.

(** X23: when it returns, [MapInterfaceToMapString] returns a map with the
    keys of [src], each holding the parameter string of its value, and the
    empty map for the nil map; it panics exactly when a value of [src] has
    no parameter string, that is, cannot be encoded. *)
Theorem X23_MapInterfaceToMapString (src : gomap) :
  (∀ r, MapInterfaceToMapString src = Some r →
        dom r = map_keys src ∧
        ∀ k v, map_lookup src k = Some v →
               ∃ str, param_string v = Some str ∧ r !! k = Some str) ∧
  (MapInterfaceToMapString src = None ↔
   ∃ k v, map_lookup src k = Some v ∧ param_string v = None) ∧
  MapInterfaceToMapString None = Some ∅.
Proof.
  split; [|split; [|done]].
  - intros r Hr. destruct src as [g|].
    + pose proof (MapInterfaceToMapString_loop g) as Hloop. rewrite Hr in Hloop.
      split.
      * unfold map_keys. simpl. apply set_eq. intros k. rewrite !elem_of_dom.
        destruct (Hloop k) as [Hk Hsome]. split; [|done].
        rewrite Hk. destruct (g !! k); [by eauto|by intros [? ?]].
      * intros k v Hk. simpl in Hk. destruct (Hloop k) as [Hrk Hsome].
        rewrite Hk in Hrk. simpl in Hrk.
        destruct (Hsome ltac:(by rewrite Hk)) as [str Hstr].
        exists str. split; [|done]. by rewrite <- Hrk.
    + injection Hr as <-. split; [done|]. by intros k v.
  - destruct src as [g|].
    + pose proof (MapInterfaceToMapString_loop g) as Hloop. split.
      * intros Hn. by rewrite Hn in Hloop.
      * intros (k & v & Hk & Hv).
        destruct (MapInterfaceToMapString (Some g)) as [r|]; [|done].
        destruct (Hloop k) as [Hrk Hsome]. simpl in Hk.
        destruct (Hsome ltac:(by rewrite Hk)) as [str Hstr].
        rewrite Hk in Hrk. simpl in Hrk. congruence.
    + split; [done|]. by intros (k & v & Hk & _).
Qed.

End ParamFacts.

(** ** Values that cannot be encoded *)

Section EncodingErrorFacts.
Context `{rt : GoRuntime}.

(** X24: [InterfaceEquals] drops the errors of [json.Marshal]: a
    [json.Number] or [float64] criteria that cannot be encoded matches every
    existing value of another type that cannot be encoded either, both texts
    being empty. *)
Theorem X24_unencodable_values_match (criteria existing : value) :
  (∃ n, criteria = JsonNumber n) ∨ (∃ f, criteria = Float64 f) →
  reflect_TypeOf criteria ≠ reflect_TypeOf existing →
  json_encode criteria = None → json_encode existing = None →
  InterfaceEquals criteria existing = true.
Proof.
  intros [[n ->]|[f ->]] Hty Hc He.
  - destruct existing as [|b|k|g|s|s|a|m]; try done.
    + change (InterfaceEquals (JsonNumber n) (Float64 g))
        with (bool_decide (json_Marshal_string (JsonNumber n) =
                           json_Marshal_string (Float64 g))).
      unfold json_Marshal_string. by rewrite Hc, He.
    + change (InterfaceEquals (JsonNumber n) (Slice a))
        with (bool_decide (json_Marshal_string (JsonNumber n) =
                           json_Marshal_string (Slice a))).
      unfold json_Marshal_string. by rewrite Hc, He.
    + change (InterfaceEquals (JsonNumber n) (Map m))
        with (bool_decide (json_Marshal_string (JsonNumber n) =
                           json_Marshal_string (Map m))).
      unfold json_Marshal_string. by rewrite Hc, He.
  - destruct existing as [|b|k|g|s|s|a|m]; try done.
    + change (InterfaceEquals (Float64 f) (Slice a))
        with (bool_decide (json_Marshal_string (Float64 f) =
                           json_Marshal_string (Slice a))).
      unfold json_Marshal_string. by rewrite Hc, He.
    + change (InterfaceEquals (Float64 f) (Map m))
        with (bool_decide (json_Marshal_string (Float64 f) =
                           json_Marshal_string (Map m))).
      unfold json_Marshal_string. by rewrite Hc, He.
Qed.

End EncodingErrorFacts.

(** ** Instances of the facts above *)

(** [{"a":nil}] matches [{}], and the value at ["a"] is nil. *)
Lemma X2_only_nil_matches_nil_witness :
  @InterfaceEquals sample_runtime (Map (Some {["a" := Nil]})) (Map (Some ∅)) = true ∧
  (Nil : value) = Nil.
Proof.
  split; [reflexivity|].
  apply (proj2 (@X2_only_nil_matches_nil sample_runtime) {["a" := Nil]} ∅ "a" Nil);
    reflexivity.
Defined.

(** The tree of the specification's example matches itself and its copy. *)
Lemma X4_matches_itself_and_its_copy_witness :
  @InterfaceEquals sample_runtime walk_example walk_example = true ∧
  @InterfaceEquals sample_runtime walk_example (copy_value walk_example) = true.
Proof.
  apply (proj1 (@X4_matches_itself_and_its_copy sample_runtime) walk_example).
  vm_compute. reflexivity.
Defined.

(** [{"a":1,"b":2}] matches itself, hence so does [{"a":1}]. *)
Lemma X6_fewer_criteria_keys_witness :
  @InterfaceEquals sample_runtime (Map (Some {["a" := Int 1]}))
    (Map (Some (<["a" := Int 1]> {["b" := Int 2]}))) = true.
Proof.
  apply (@X6_fewer_criteria_keys sample_runtime (<["a" := Int 1]> {["b" := Int 2]})).
  - apply map_subseteq_spec. intros k v [<- <-]%lookup_singleton_Some. reflexivity.
  - vm_compute. reflexivity.
Defined.

(** Noon sharp against the string ["0"]: accepted, and the first parses. *)
Lemma X8_TimeCompare_needs_a_timestamp_witness :
  ∃ s1 s2, String "2022-01-01T12:00:00Z" = String s1 ∧ String "0" = String s2 ∧
    (is_Some (@time_Parse sample_runtime RFC3339 s1) ∨
     is_Some (@time_Parse sample_runtime RFC3339 s2)).
Proof.
  apply (@X8_TimeCompare_needs_a_timestamp sample_runtime). vm_compute. reflexivity.
Defined.

(** [{"a","b","c"}] has the keys of [{"a","b"}], which has those of [{"a"}]. *)
Lemma X9_MapIsCompatible_keys_witness :
  MapIsCompatible (Some (<["a" := Int 1]> (<["b" := Int 2]> {["c" := Int 3]})))
                  (Some {["a" := Int 9]}) = true.
Proof.
  apply (proj1 (proj2 (proj2 X9_MapIsCompatible_keys)) _
           (Some (<["a" := Int 1]> {["b" := Int 2]}))); vm_compute; reflexivity.
Defined.

(** [MapAdd] on [{"a":1}] and [{"a":2,"b":3}] keeps 1 at ["a"]; on [{}] it
    is the copy of [src]. *)
Lemma X10_MapAdd_dst_wins_witness :
  map_lookup (MapAdd (Some {["a" := Int 1]}) (Some (<["a" := Int 2]> {["b" := Int 3]}))) "a"
  = Some (Int 1) ∧
  MapAdd (Some ∅) (Some {["a" := Int 1]}) = MapCopy (Some {["a" := Int 1]}).
Proof.
  split.
  - refine (proj1 (X10_MapAdd_dst_wins _ _) _ "a"). vm_compute. discriminate.
  - refine (proj2 (X10_MapAdd_dst_wins _ _) _). reflexivity.
Defined.

Lemma X11_MapAdd_is_MapCombine_swapped_witness :
  MapAdd (Some {["a" := Int 1]}) (Some (<["a" := Int 2]> {["b" := Int 3]})) =
  MapCombine (Some (<["a" := Int 2]> {["b" := Int 3]})) (Some {["a" := Int 1]}).
Proof. apply X11_MapAdd_is_MapCombine_swapped; vm_compute; discriminate. Defined.

Lemma X13_MapReplace_idempotent_witness :
  map_lookup (MapReplace (Some (<["a" := Int 1]> {["b" := Int 2]}))
                         (Some (<["b" := Int 9]> {["c" := Int 9]}))) "b" =
  map_lookup (MapCombine (Some (<["a" := Int 1]> {["b" := Int 2]}))
                         (Some (<["b" := Int 9]> {["c" := Int 9]}))) "b".
Proof.
  apply (proj2 (X13_MapReplace_idempotent _ _)).
  - vm_compute. discriminate.
  - apply map_keys_lookup. vm_compute. eauto.
Defined.

Lemma X16_merge_result_matches_witness :
  @InterfaceEquals sample_runtime (Map (Some {["a" := Int 2]}))
    (Map (MapCombine (Some {["a" := Int 1]}) (Some {["a" := Int 2]}))) = true ∧
  @InterfaceEquals sample_runtime (Map (Some {["a" := Int 1]}))
    (Map (MapAdd (Some {["a" := Int 1]}) (Some {["a" := Int 2]}))) = true.
Proof.
  split.
  - apply (proj1 (@X16_merge_result_matches sample_runtime _ _)). reflexivity.
  - apply (proj2 (@X16_merge_result_matches sample_runtime _ _)). reflexivity.
Defined.

Lemma X17_match_gives_compatible_witness :
  MapIsCompatible (Some (<["a" := Int 1]> {["b" := Int 2]})) (Some {["a" := Int 1]}) = true.
Proof.
  apply (@X17_match_gives_compatible sample_runtime).
  - intros k v Hk. simpl in Hk.
    apply lookup_singleton_Some in Hk as [<- <-]. discriminate.
  - vm_compute. reflexivity.
Defined.

(** The walk over [[{"a":{"b":1}},{"c":1}]]. *)
Lemma X18_walk_visits_every_map_witness :
  ∃ visited,
    IterateMapsInInterface two_maps record_map [] = (visited, None) ∧
    visited ≡ₚ WalkObjects_spec two_maps ∧
    (∀ m, m ∈ visited → m ≠ None).
Proof. exact (X18_walk_visits_every_map two_maps). Defined.

Lemma X19_walk_error_origin_witness :
  (IterateMapsInInterface two_maps record_map []).2 = None.
Proof.
  apply (proj1 (proj2 (proj2 (@X19_walk_error_origin (list gomap) string two_maps)))).
  intros m s0. reflexivity.
Defined.

(** The walk over the copy of [{}] makes no call; the walk over [{}] calls
    the recording callback on it. *)
Lemma X20_walk_over_copy_meets_no_empty_map_witness :
  IterateMapsInInterface (Map (MapCopy (Some ∅))) record_map [] = ([], None) ∧
  IterateMapsInInterface (Map (Some ∅)) record_map [] = ([Some ∅], None).
Proof.
  split.
  - apply (proj1 (proj2 X20_walk_over_copy_meets_no_empty_map)). reflexivity.
  - apply (proj2 (proj2 X20_walk_over_copy_meets_no_empty_map)).
Defined.

Lemma X21_InterfaceToJsonString_witness :
  @InterfaceToJsonString sample_runtime (Slice (Some [Float64 nan])) = None.
Proof.
  apply (proj1 (proj2 (proj2 (@X21_InterfaceToJsonString sample_runtime)))).
  reflexivity.
Defined.

Lemma X22_slice_parameter_witness :
  @param_string sample_runtime (Slice (Some [String "x"; String "y"])) = Some "x,y".
Proof.
  apply (proj1 (proj2 (proj2 (@X22_slice_parameter sample_runtime
                                [String "x"; String "y"]))) ["x"; "y"]).
  - reflexivity.
  - intros s'. change (String.concat "," ["x"; "y"]) with (TrimRight_comma "x,y").
    apply TrimRight_comma_end.
Defined.

Lemma X23_MapInterfaceToMapString_witness :
  @MapInterfaceToMapString sample_runtime (Some {["a" := Int 1]}) = Some {["a" := "1"]} ∧
  dom ({["a" := "1"]} : gmap string string) = map_keys (Some {["a" := Int 1]}).
Proof.
  assert (@MapInterfaceToMapString sample_runtime (Some {["a" := Int 1]}) =
          Some {["a" := "1"]}) as Hr by (vm_compute; reflexivity).
  split; [exact Hr|].
  exact (proj1 (proj1 (@X23_MapInterfaceToMapString sample_runtime
                         (Some {["a" := Int 1]})) _ Hr)).
Defined.

(** The [json.Number] ["1x"] is no number and a slice holding a NaN cannot
    be encoded: the first matches the second. *)
Lemma X24_unencodable_values_match_witness :
  @InterfaceEquals sample_runtime (JsonNumber "1x") (Slice (Some [Float64 nan])) = true.
Proof.
  apply (@X24_unencodable_values_match sample_runtime).
  - left. by eexists.
  - discriminate.
  - reflexivity.
  - reflexivity.
Defined.
